(** * Seam carving: a shallow embedding of seamCarving.cpp and its properties

    The development follows the last revision of the program (the one that
    contains [initCumulativeEnergyMap] and [seamCarver]).  A [vector<int>] is a
    [list Z], a [vector<vector<int>>] a list of rows.  The C++ [operator[]] is
    unchecked, so every access goes through [vget]/[vset], which answer [None]
    outside the vector: [None] stands for undefined behaviour, and a result
    [Some _] says that every access made on the way was in bounds. *)

From Stdlib Require Import ZArith List Lia String Ascii.
From stdpp Require Import base tactics option list numbers.

Local Open Scope string_scope.
Local Open Scope list_scope.
Local Open Scope Z_scope.

(** ** The C++ [int]

    An [int] is a [Z] in the range of 32 bits.  Signed overflow is undefined
    in C++; the operations below give the two's complement result, and the
    theorems that state a mathematical sum say under which bound on the
    pixels no operation overflows. *)

Module Int.

Definition min : Z := -2147483648.
Definition max : Z := 2147483647.

(** Two's complement reduction to 32 bits. *)
Definition wrap (z : Z) : Z := (z + 2147483648) mod 4294967296 - 2147483648.

Definition add (a b : Z) : Z := wrap (a + b).
Definition sub (a b : Z) : Z := wrap (a - b).
Definition abs (a : Z) : Z := wrap (Z.abs a).

Definition in_range (z : Z) : Prop := min <= z <= max.

End Int.

(** ** Vectors *)

Abbreviation vec := (list Z).
Abbreviation grid := (list (list Z)).

Definition vsize {A} (v : list A) : Z := Z.of_nat (length v).

(** [v[k]] for an [int] index [k]. *)
Definition vget {A} (v : list A) (k : Z) : option A :=
  if bool_decide (0 <= k) then v !! Z.to_nat k else None.

(** [v[k] = x]. *)
Definition vset {A} (v : list A) (k : Z) (x : A) : option (list A) :=
  if bool_decide (0 <= k < vsize v) then Some (<[Z.to_nat k := x]> v) else None.

(** [v.pop_back()]: undefined on an empty vector. *)
Definition pop_back {A} (v : list A) : option (list A) :=
  match v with
  | [] => None
  | _ => Some (removelast v)
  end.

(** [std::swap(v[k], v[k + 1])]. *)
Definition swap_next (v : vec) (k : Z) : option vec :=
  a ← vget v k;
  b ← vget v (k + 1);
  v' ← vset v k b;
  vset v' (k + 1) a.

(** [std::min_element]: position of the first smallest element; the
    past-the-end position (0) of an empty range. *)
Fixpoint std_min_element_from (smallest : nat) (least : Z) (k : nat) (l : vec) : nat :=
  match l with
  | [] => smallest
  | x :: l' =>
      if x <? least then std_min_element_from k x (S k) l'
      else std_min_element_from smallest least (S k) l'
  end.

Definition std_min_element (l : vec) : nat :=
  match l with
  | [] => 0%nat
  | x :: l' => std_min_element_from 0 x 1 l'
  end.

(** [std::find]: position of the first element equal to [v], the
    past-the-end position when there is none. *)
Fixpoint std_find (l : vec) (v : Z) : nat :=
  match l with
  | [] => 0%nat
  | x :: l' => if x =? v then 0%nat else S (std_find l' v)
  end.

(** ** Loops *)

(** [for (int i = lo; i < hi; ++i) body], the bound being fixed; the loop
    runs in the monad of its body. *)
Fixpoint for_up `{MBind M, MRet M} {S} (fuel : nat) (i : Z) (body : Z -> S -> M S) (s : S) : M S :=
  match fuel with
  | O => mret s
  | Datatypes.S fuel' => s' ← body i s; for_up fuel' (i + 1) body s'
  end.

Definition for_ `{MBind M, MRet M} {S} (lo hi : Z) (body : Z -> S -> M S) (s : S) : M S :=
  for_up (Z.to_nat (hi - lo)) lo body s.

(** [for (int i = hi; i >= 0; --i) body]. *)
Fixpoint for_down_from `{MBind M, MRet M} {S} (fuel : nat) (i : Z) (body : Z -> S -> M S) (s : S)
  : M S :=
  match fuel with
  | O => mret s
  | Datatypes.S fuel' => s' ← body i s; for_down_from fuel' (i - 1) body s'
  end.

Definition for_down `{MBind M, MRet M} {S} (hi : Z) (body : Z -> S -> M S) (s : S) : M S :=
  for_down_from (Z.to_nat (hi + 1)) hi body s.

(** ** initEnergyMap *)

(** The body of the inner loop: the energy of the pixel of row [i], column [j]. *)
Definition energyPixel (imageMap : grid) (i j : Z) : option Z :=
  row ← vget imageMap i;
  cur ← vget row j;
  left ← (if bool_decide (j - 1 >= 0) then vget row (j - 1) else Some cur);
  right ← (if bool_decide (j + 1 < vsize row) then vget row (j + 1) else Some cur);
  let changeX := Int.add (Int.abs (Int.sub cur left)) (Int.abs (Int.sub cur right)) in
  up ← (if bool_decide (i - 1 >= 0) then vget imageMap (i - 1) ≫= (λ r, vget r j)
        else Some cur);
  down ← (if bool_decide (i + 1 < vsize imageMap) then vget imageMap (i + 1) ≫= (λ r, vget r j)
          else Some cur);
  let changeY := Int.add (Int.abs (Int.sub cur up)) (Int.abs (Int.sub cur down)) in
  Some (Int.add changeX changeY).

Definition initEnergyMap (imageMap : grid) : option grid :=
  for_ 0 (vsize imageMap) (λ i result,
    row ← vget imageMap i;
    rowResult ← for_ 0 (vsize row) (λ j rowResult,
      e ← energyPixel imageMap i j;
      Some (rowResult ++ [e])) [];
    Some (result ++ [rowResult])) [].

(** ** initCumulativeEnergyMap *)

(** The list of the cumulative energies a pixel of column [j] can come from,
    read in row [above]; [width] is the size the right bound is checked
    against. *)
Definition validSeamOriginList (above : vec) (width : Z) (j : Z) : option vec :=
  l1 ← (if bool_decide (j - 1 >= 0) then x ← vget above (j - 1); Some [x] else Some []);
  x ← vget above j;
  let l2 := l1 ++ [x] in
  if bool_decide (j + 1 < width) then y ← vget above (j + 1); Some (l2 ++ [y])
  else Some l2.

Definition initCumulativeEnergyMap (energyMap : grid) : option grid :=
  for_ 1 (vsize energyMap) (λ i result,
    row_i ← vget result i;
    for_ 0 (vsize row_i) (λ j result,
      above ← vget result (i - 1);
      erow ← vget energyMap i;
      origins ← validSeamOriginList above (vsize erow) j;
      least ← origins !! std_min_element origins;
      row ← vget result i;
      cur ← vget row j;
      row' ← vset row j (Int.add cur least);
      vset result i row') result) energyMap.

(** ** seamCarver *)

(** [int seam_column_indices[n] = { -1 }]. *)
Definition seam_column_indices_init (n : nat) : vec :=
  match n with
  | O => []
  | Datatypes.S k => -1 :: replicate k 0
  end.

(** The [while] loop that swaps the seam pixel to the end of its row.  The
    index grows at every turn, so [size] turns are enough; [None] is also the
    answer when the fuel is used up. *)
Fixpoint swap_to_end (fuel : nat) (width : Z) (row : vec) (seam_pixel_index : Z) : option vec :=
  if bool_decide (seam_pixel_index + 1 < width) then
    match fuel with
    | O => None
    | Datatypes.S fuel' =>
        row' ← swap_next row seam_pixel_index;
        swap_to_end fuel' width row' (seam_pixel_index + 1)
    end
  else Some row.

Definition seamCarver_step (cumulativeEnergyMap : grid) (i : Z) (st : grid * vec)
  : option (grid * vec) :=
  let '(imageMap, seam_column_indices) := st in
  (* remove the seam pixel of this row *)
  seam_pixel_index ← vget seam_column_indices i;
  ce_i ← vget cumulativeEnergyMap i;
  row ← vget imageMap i;
  row ← swap_to_end (length ce_i) (vsize ce_i) row seam_pixel_index;
  row ← pop_back row;
  imageMap ← vset imageMap i row;
  (* find out what the next seam pixel index is *)
  if bool_decide (i - 1 >= 0) then
    above ← vget cumulativeEnergyMap (i - 1);
    column ← vget seam_column_indices i;
    origins ← validSeamOriginList above (vsize ce_i) column;
    seam_traceback_value ← origins !! std_min_element origins;
    let seam_traceback_index := Z.of_nat (std_find above seam_traceback_value) in
    seam_column_indices ← vset seam_column_indices (i - 1) seam_traceback_index;
    Some (imageMap, seam_column_indices)
  else Some (imageMap, seam_column_indices).

(** The result pairs the image map, which the C++ function changes in place,
    with the final contents of the local array [seam_column_indices]. *)
Definition seamCarver (imageMap cumulativeEnergyMap : grid) : option (grid * vec) :=
  let seam_column_indices := seam_column_indices_init (length cumulativeEnergyMap) in
  let num_rows := vsize cumulativeEnergyMap in
  last ← vget cumulativeEnergyMap (num_rows - 1);
  let seam_end_index := Z.of_nat (std_min_element last) in
  seam_column_indices ← vset seam_column_indices (num_rows - 1) seam_end_index;
  for_down (vsize cumulativeEnergyMap - 1) (seamCarver_step cumulativeEnergyMap)
    (imageMap, seam_column_indices).

(** The three stages in the order [main] runs them. *)
Definition pipeline (imageMap : grid) : option (grid * grid * grid * vec) :=
  E ← initEnergyMap imageMap;
  CE ← initCumulativeEnergyMap E;
  '(I', seam) ← seamCarver imageMap CE;
  Some (E, CE, I', seam).


(** ** Input and output

    What the program prints is kept as the list of the operands of
    [operator<<], a run ends by returning, by [exit], by an uncaught
    exception or in undefined behaviour. *)

Inductive item : Type :=
| Str (s : string)
| Num (n : Z).

Record console : Type := Console { cout : list item; cerr : list item }.

Inductive outcome (A : Type) : Type :=
| Returned (a : A)
| Exited (status : Z)
| Aborted
| Undefined.
Arguments Returned {A} a.
Arguments Exited {A} status.
Arguments Aborted {A}.
Arguments Undefined {A}.

Definition io (A : Type) : Type := console -> outcome A * console.

#[global] Instance io_ret : MRet io := λ A a c, (Returned a, c).

#[global] Instance io_bind : MBind io := λ A B f m c,
  match m c with
  | (Returned a, c') => f a c'
  | (Exited status, c') => (Exited status, c')
  | (Aborted, c') => (Aborted, c')
  | (Undefined, c') => (Undefined, c')
  end.

Definition put_cout (items : list item) : io unit :=
  λ c, (Returned tt, Console (cout c ++ items) (cerr c)).

Definition put_cerr (items : list item) : io unit :=
  λ c, (Returned tt, Console (cout c) (cerr c ++ items)).

Definition exit {A} (status : Z) : io A := λ c, (Exited status, c).
Definition abort {A} : io A := λ c, (Aborted, c).
Definition undefined {A} : io A := λ c, (Undefined, c).

(** A computation of the core, where [None] is undefined behaviour. *)
Definition defined {A} (o : option A) : io A :=
  match o with
  | Some a => mret a
  | None => undefined
  end.

(** Range-based [for] over a vector. *)
Fixpoint for_each {A} (l : list A) (body : A -> io unit) : io unit :=
  match l with
  | [] => mret tt
  | x :: l' => body x ;; for_each l' body
  end.

(** *** Character streams *)

Definition newline : ascii := ascii_of_nat 10.
Definition nl : string := String newline EmptyString.

Record istream : Type := IStream { buffer : string; eofbit : bool; failbit : bool }.

Definition good (input : istream) : bool := negb (eofbit input) && negb (failbit input).

Definition stream_of (s : string) : istream := IStream s false false.

(** The characters up to the next newline, and what follows that newline
    when there is one. *)
Fixpoint read_line (s : string) : string * option string :=
  match s with
  | EmptyString => (EmptyString, None)
  | String c s' =>
      if Ascii.eqb c newline then (EmptyString, Some s')
      else let '(line, rest) := read_line s' in (String c line, rest)
  end.

(** [std::getline(is, str)]: a stream that is not good fails and leaves
    [str] alone; reaching the end of the stream sets [eofbit], and [failbit]
    too when nothing was read. *)
Definition getline (input : istream) (str : string) : istream * string :=
  if good input then
    match read_line (buffer input) with
    | (line, Some rest) => (IStream rest false false, line)
    | (line, None) => (IStream EmptyString true (String.eqb line EmptyString), line)
    end
  else (IStream (buffer input) (eofbit input) true, str).

(** [is.peek()]. *)
Definition peek (input : istream) : istream * option ascii :=
  if good input then
    match buffer input with
    | EmptyString => (IStream EmptyString true (failbit input), None)
    | String c _ => (input, Some c)
    end
  else (input, None).

Definition isspace (c : ascii) : bool :=
  let n := nat_of_ascii c in
  Nat.eqb n 32 || (Nat.leb 9 n && Nat.leb n 13).

Fixpoint skipws (s : string) : string :=
  match s with
  | EmptyString => EmptyString
  | String c s' => if isspace c then skipws s' else s
  end.

Definition digit (c : ascii) : option Z :=
  let n := nat_of_ascii c in
  if Nat.leb 48 n && Nat.leb n 57 then Some (Z.of_nat n - 48) else None.

(** The digits at the head of [s], read in base ten after [acc]. *)
Fixpoint read_digits (s : string) (acc : Z) : Z * string :=
  match s with
  | EmptyString => (acc, EmptyString)
  | String c s' =>
      match digit c with
      | Some d => read_digits s' (10 * acc + d)
      | None => (acc, s)
      end
  end.

Definition starts_with_digit (s : string) : bool :=
  match s with
  | String c _ => match digit c with Some _ => true | None => false end
  | EmptyString => false
  end.

(** An optional sign and at least one digit. *)
Definition read_integer (s : string) : option (Z * string) :=
  match s with
  | String "-" s' =>
      if starts_with_digit s' then let '(n, rest) := read_digits s' 0 in Some (- n, rest)
      else None
  | String "+" s' =>
      if starts_with_digit s' then Some (read_digits s' 0) else None
  | _ => if starts_with_digit s then Some (read_digits s 0) else None
  end.

Definition clamp (n : Z) : Z := Z.max Int.min (Z.min Int.max n).

(** [is >> v] for an [int]: white space is skipped; at the end of the stream
    the extraction fails and [v] keeps its value; text that is no number gives 0
    and a number out of range the nearest [int], both with [failbit]. *)
Definition extract_int (input : istream) (v : Z) : istream * Z :=
  if good input then
    match skipws (buffer input) with
    | EmptyString => (IStream EmptyString true true, v)
    | s =>
        match read_integer s with
        | None => (IStream s false true, 0)
        | Some (n, rest) =>
            (IStream rest (String.eqb rest EmptyString)
               (negb (bool_decide (Int.min <= n <= Int.max))),
             clamp n)
        end
    end
  else (IStream (buffer input) (eofbit input) true, v).

(** [std::stoi]: [None] when it throws ([invalid_argument], [out_of_range]). *)
Definition stoi (s : string) : option Z :=
  match read_integer (skipws s) with
  | Some (n, _) => if bool_decide (Int.min <= n <= Int.max) then Some n else None
  | None => None
  end.

(** [str[str.size() - 1]]: there is no such character in an empty string,
    where the index wraps around to the largest [size_t]. *)
Fixpoint last_char (s : string) : option ascii :=
  match s with
  | EmptyString => None
  | String c EmptyString => Some c
  | String _ s' => last_char s'
  end.

(** *** initImageMap *)

Definition filesystem : Type := string -> option string.

(** The loop that gathers the lines of pixel data in one string.  Every turn
    takes a line off the stream, so one turn per character and one more are
    enough. *)
Fixpoint read_pixel_lines (fuel : nat) (pgmInputFile : istream) (temp_line pixelData : string)
  : io string :=
  if eofbit pgmInputFile then mret pixelData
  else
    match fuel with
    | O => undefined
    | Datatypes.S fuel' =>
        let '(pgmInputFile, temp_line) := getline pgmInputFile temp_line in
        match last_char temp_line with
        | None => undefined
        | Some c =>
            let temp_line :=
              if negb (Ascii.eqb c " ") then (temp_line ++ " ")%string else temp_line in
            read_pixel_lines fuel' pgmInputFile temp_line (pixelData ++ temp_line)%string
        end
    end.

Definition range_error (maxPixelValue : Z) : list item :=
  [Str "error: a pixel value exists in the image data which falls outside the given acceptable range of [0, ";
   Num maxPixelValue;
   Str ("]" ++ nl)].

(** The body of the inner loop: one pixel is read and checked. *)
Definition populate_pixel (maxPixelValue : Z) (j : Z) (st : istream * Z * vec)
  : io (istream * Z * vec) :=
  let '(ssPixelData, pixel, rowResult) := st in
  let '(ssPixelData, pixel) := extract_int ssPixelData pixel in
  (* ensure the pixel is within the valid range of values *)
  if bool_decide (pixel > maxPixelValue) || bool_decide (pixel < 0) then
    put_cerr (range_error maxPixelValue) ;; exit 1
  else mret (ssPixelData, pixel, rowResult ++ [pixel]).

(** The body of the outer loop: one row is read. *)
Definition populate_row (columns maxPixelValue : Z) (i : Z) (st : istream * Z * grid)
  : io (istream * Z * grid) :=
  let '(ssPixelData, pixel, result) := st in
  st ← for_ 0 columns (populate_pixel maxPixelValue) (ssPixelData, pixel, []);
  let '(ssPixelData, pixel, rowResult) := st in
  mret (ssPixelData, pixel, result ++ [rowResult]).

(** The loops that fill the image map from the stream of pixel data. *)
Definition populate (rows columns maxPixelValue : Z) (ssPixelData : istream) : io grid :=
  st ← for_ 0 rows (populate_row columns maxPixelValue) (ssPixelData, 0, []);
  mret st.2.

(** The same loops in the two earlier revisions kept in seamCarving.cpp,
    where the pixel is stored as it is read. *)
Definition populate_unchecked_pixel (j : Z) (st : istream * Z * vec)
  : io (istream * Z * vec) :=
  let '(ssPixelData, pixel, temp) := st in
  let '(ssPixelData, pixel) := extract_int ssPixelData pixel in
  mret (ssPixelData, pixel, temp ++ [pixel]).

Definition populate_unchecked_row (columns : Z) (i : Z) (st : istream * Z * grid)
  : io (istream * Z * grid) :=
  let '(ssPixelData, pixel, result) := st in
  st ← for_ 0 columns populate_unchecked_pixel (ssPixelData, pixel, []);
  let '(ssPixelData, pixel, temp) := st in
  mret (ssPixelData, pixel, result ++ [temp]).

Definition populate_unchecked (rows columns : Z) (ssPixelData : istream) : io grid :=
  st ← for_ 0 rows (populate_unchecked_row columns) (ssPixelData, 0, []);
  mret st.2.

Definition initImageMap (fs : filesystem) (filename : string) : io grid :=
  match fs filename with
  | None =>
      put_cerr [Str "error: could not open file '"; Str filename; Str ("'" ++ nl);
                Str ("check the file name is correct and the file is located at the same directory level as the executable" ++ nl)] ;;
      exit 1
  | Some contents =>
      let pgmInputFile := stream_of contents in
      let temp_line := EmptyString in
      let '(pgmInputFile, temp_line) := getline pgmInputFile temp_line in
      if negb (String.eqb temp_line "P2") then
        put_cerr [Str ("error: invalid pgm file format" ++ nl);
                  Str "file format was read as '"; Str temp_line;
                  Str ("', while the only supported format is 'P2'" ++ nl)] ;;
        exit 1
      else
        let '(pgmInputFile, next) := peek pgmInputFile in
        let '(pgmInputFile, temp_line) :=
          match next with
          | Some "#"%char => getline pgmInputFile temp_line
          | _ => (pgmInputFile, temp_line)
          end in
        let '(pgmInputFile, temp_line) := getline pgmInputFile temp_line in
        let dimensions := stream_of temp_line in
        let '(dimensions, columns) := extract_int dimensions 0 in
        let '(dimensions, rows) := extract_int dimensions 0 in
        if Z.eqb columns 0 || Z.eqb rows 0 then
          put_cerr [Str ("error: a problem occured in reading the pgm file dimensions" ++ nl);
                    Str ("please ensure the data format outlined in the project description is strictly adhered to " ++ nl)] ;;
          exit 1
        else
          let '(pgmInputFile, temp_line) := getline pgmInputFile temp_line in
          match stoi temp_line with
          | None => abort
          | Some maxPixelValue =>
              pixelData ← read_pixel_lines (Datatypes.S (String.length (buffer pgmInputFile)))
                            pgmInputFile temp_line EmptyString;
              populate rows columns maxPixelValue (stream_of pixelData)
          end
  end.

(** *** displayMap *)

Definition displayMap (map : grid) : io unit :=
  for_each map (λ row,
    for_each row (λ pixel,
      if bool_decide (pixel < 100) && bool_decide (pixel >= 10) then
        put_cout [Str " 0"; Num pixel; Str " "]
      else if bool_decide (pixel < 10) then
        put_cout [Str " 00"; Num pixel; Str " "]
      else
        put_cout [Str " "; Num pixel; Str " "]) ;;
    put_cout [Str nl]).

(** *** main *)

Definition banner : list item :=
  [Str (" ______________________________________________________" ++ nl);
   Str ("|                                                      |" ++ nl);
   Str ("| 3460:435/535 Algorithms Project Three - Seam Carving |" ++ nl);
   Str ("|______________________________________________________|" ++ nl ++ nl)].

Definition usage_error : list item :=
  [Str ("error: invalid command-line arguments" ++ nl);
   Str ("format of valid program invocation: ./a [pgm image file] [# vertical seams to remove] [# horizontal seams to remove]" ++ nl)].

(** [argv] holds the [argc] arguments; [argv[argc]] is the null pointer, from
    which no [std::string] can be built. *)
Definition main (fs : filesystem) (argv : list string) : io Z :=
  let argc := Z.of_nat (length argv) in
  put_cout banner ;;
  (if negb (Z.eqb argc 4) then put_cerr usage_error else mret tt) ;;
  filename ← defined (argv !! 1%nat);
  I ← initImageMap fs filename;
  put_cout [Str "Image Map For '"; Str filename; Str ("': " ++ nl)] ;;
  displayMap I ;;
  E ← defined (initEnergyMap I);
  put_cout [Str (nl ++ "Energy Map: " ++ nl)] ;;
  displayMap E ;;
  CE ← defined (initCumulativeEnergyMap E);
  put_cout [Str (nl ++ "Cumulative Energy Map: " ++ nl)] ;;
  displayMap CE ;;
  carved ← defined (seamCarver I CE);
  let I := carved.1 in
  put_cout [Str (nl ++ "Seam-Carved Image: " ++ nl)] ;;
  displayMap I ;;
  mret 0.

(** ** Vocabulary of the specification *)

(** A grid of [R] rows that all have [C] columns. *)
Definition rectangular (g : grid) (R C : nat) : Prop :=
  length g = R ∧ Forall (λ row, length row = C) g.

(** The cell of row [i] and column [j], when the grid has one. *)
Definition cell (g : grid) (i j : Z) : option Z :=
  vget g i ≫= (λ row, vget row j).

(** Every pixel lies in [[0, maxValue]], the range [initImageMap] enforces. *)
Definition pixels_within (maxValue : Z) (g : grid) : Prop :=
  Forall (Forall (λ p, 0 <= p <= maxValue)) g.

(** Duplicate-border policy: the neighbour at [(i', j')] of a pixel of value
    [own], the pixel's own value standing in for a neighbour outside the grid. *)
Definition neighbour (g : grid) (own : Z) (i' j' : Z) : Z :=
  default own (cell g i' j').

(** The least value of a list, [None] for the empty list. *)
Definition minimum (l : vec) : option Z :=
  match l with
  | [] => None
  | x :: l' => Some (foldr Z.min x l')
  end.

(** The columns among [j-1], [j], [j+1] that lie in [[0, C-1]], left to right. *)
Definition candidate_columns (C : Z) (j : Z) : list Z :=
  filter (λ k, 0 <= k < C) [j - 1; j; j + 1].

(** The values row [row] holds at the candidate columns of [j]. *)
Definition candidate_values (row : vec) (j : Z) : vec :=
  omap (vget row) (candidate_columns (vsize row) j).

(** Adjacency invariant of a seam: consecutive columns differ by at most 1. *)
Fixpoint adjacent (seam : vec) : Prop :=
  match seam with
  | a :: (b :: _) as rest => Z.abs (b - a) <= 1 ∧ adjacent rest
  | _ => True
  end.

(** The values the variable [pixel] takes over [n] successive extractions
    from the stream of pixel data. *)
Fixpoint extractions (n : nat) (ssPixelData : istream) (pixel : Z) : list Z :=
  match n with
  | O => []
  | Datatypes.S n' =>
      let '(ssPixelData, pixel) := extract_int ssPixelData pixel in
      pixel :: extractions n' ssPixelData pixel
  end.

(** The stream and the variable [pixel] after [n] extractions. *)
Fixpoint after_extractions (n : nat) (ssPixelData : istream) (pixel : Z) : istream * Z :=
  match n with
  | O => (ssPixelData, pixel)
  | Datatypes.S n' =>
      let '(ssPixelData, pixel) := extract_int ssPixelData pixel in
      after_extractions n' ssPixelData pixel
  end.

(** [m] rows of [columns] successive extractions. *)
Fixpoint extracted_rows (m columns : nat) (ssPixelData : istream) (pixel : Z) : grid :=
  match m with
  | O => []
  | Datatypes.S m' =>
      extractions columns ssPixelData pixel
      :: (let '(ssPixelData, pixel) := after_extractions columns ssPixelData pixel in
          extracted_rows m' columns ssPixelData pixel)
  end.

Definition in_pixel_range (maxPixelValue : Z) (pixel : Z) : bool :=
  bool_decide (0 <= pixel <= maxPixelValue).

(** What [displayMap] prints. *)
Definition display_pixel (pixel : Z) : list item :=
  if bool_decide (10 <= pixel < 100) then [Str " 0"; Num pixel; Str " "]
  else if bool_decide (pixel < 10) then [Str " 00"; Num pixel; Str " "]
  else [Str " "; Num pixel; Str " "].

Definition display_items (map : grid) : list item :=
  concat ((λ row, concat (display_pixel <$> row) ++ [Str nl]) <$> map).

(** A run reports a violation when it writes to [cerr], or is fatal: it
    leaves through [exit] with a status other than 0 or through an uncaught
    exception. *)
Definition reports_violation {A} (run : io A) (c : console) : Prop :=
  cerr (run c).2 ≠ cerr c
  ∨ (∃ status, status ≠ 0 ∧ (run c).1 = Exited status)
  ∨ (run c).1 = Aborted.

(** The backtrace as the specification words it.  Seed: the leftmost index
    of the minimum of the last row. *)
Definition reference_seed (last : vec) : option Z :=
  m ← minimum last;
  head (filter (λ k, vget last k = Some m) (seqZ 0 (vsize last))).

(** Step: among the columns [j-1], [j], [j+1] that lie in the grid, the
    leftmost whose value in the row above is the minimum of those values. *)
Definition reference_step (above : vec) (j : Z) : option Z :=
  m ← minimum (candidate_values above j);
  head (filter (λ k, vget above k = Some m) (candidate_columns (vsize above) j)).

(** The columns of the rows above, from the row just above up to row 0. *)
Fixpoint reference_walk (rows_above : list vec) (j : Z) : option vec :=
  match rows_above with
  | [] => Some []
  | above :: rows_above' =>
      j' ← reference_step above j;
      rest ← reference_walk rows_above' j';
      Some (j' :: rest)
  end.

Definition reference_backtrace (cumulativeEnergyMap : grid) : option vec :=
  match reverse cumulativeEnergyMap with
  | [] => None
  | last :: rows_above =>
      seed ← reference_seed last;
      rest ← reference_walk rows_above seed;
      Some (reverse (seed :: rest))
  end.

(** A line of text: it holds no newline. *)
Fixpoint newline_free (s : string) : bool :=
  match s with
  | EmptyString => true
  | String c s' => negb (Ascii.eqb c newline) && newline_free s'
  end.

(** The text of a raster file: the line of the format, the comment line
    when there is one, the line of the dimensions, the line of the maximum,
    then the lines of pixels, the last of which ends the file. *)
Definition pgm_text (comment : option string) (dims maxline : string) (lines : list string)
  : string :=
  let raster := (dims ++ nl ++ maxline ++ nl ++ String.concat nl lines)%string in
  ("P2" ++ nl ++ match comment with
                 | Some text => "#" ++ text ++ nl ++ raster
                 | None => raster
                 end)%string.

(** What [dimensions >> columns >> rows] reads from the line of the
    dimensions: the pair of the columns and the rows. *)
Definition header_dimensions (dims : string) : Z * Z :=
  let '(dimensions, columns) := extract_int (stream_of dims) 0 in
  let '(_, rows) := extract_int dimensions 0 in
  (columns, rows).

(** A line of pixels as it is added to the pixel data: a space is put
    after a line that does not end in one. *)
Definition spaced (line : string) : string :=
  match last_char line with
  | Some c => if negb (Ascii.eqb c " ") then (line ++ " ")%string else line
  | None => line
  end.

(** The pixel data gathered from the lines of pixels. *)
Definition pixel_data (lines : list string) : string :=
  fold_left (λ pixelData line, (pixelData ++ spaced line)%string) lines EmptyString.

(** A raster in the format of the header comment of seamCarving.cpp, and a
    file system that holds it. *)
Definition example_pgm : string :=
  "P2" ++ nl ++ "# Created by IrfanView" ++ nl ++ "3 3" ++ nl ++ "255" ++ nl
  ++ "1 2 3" ++ nl ++ "4 5 6" ++ nl ++ "7 8 9".

Definition example_fs : filesystem :=
  λ filename, if String.eqb filename "image.pgm" then Some example_pgm else None.

(** A raster with a pixel above the maximum of its header. *)
Definition example_pgm_out_of_range : string :=
  "P2" ++ nl ++ "3 1" ++ nl ++ "255" ++ nl ++ "1 256 3".

(** ** Invariants of the loops *)

(** The energy of a pixel as [initEnergyMap] computes it, in [int] arithmetic. *)
Definition int_energy (p left right up down : Z) : Z :=
  Int.add (Int.add (Int.abs (Int.sub p left)) (Int.abs (Int.sub p right)))
          (Int.add (Int.abs (Int.sub p up)) (Int.abs (Int.sub p down))).

(** The energy [initEnergyMap] stores for the pixel of row [i], column [j]. *)
Definition energy_of (imageMap : grid) (i j : Z) : Z :=
  default 0 (energyPixel imageMap i j).

(** [r] is the first position of the least value [m] of [l]. *)
Definition first_min (l : vec) (r : nat) (m : Z) : Prop :=
  l !! r = Some m ∧ (∀ x, x ∈ l → m <= x) ∧ (∀ i x, (i < r)%nat → l !! i = Some x → m < x).

(** Cell [(k, j)] of [result] holds its final value: the energy of the cell
    plus the least cumulative energy among its origins in row [k - 1]. *)
Definition cum_processed (energyMap result : grid) (k j : Z) : Prop :=
  ∃ above e m,
    vget result (k - 1) = Some above ∧ cell energyMap k j = Some e ∧
    minimum (candidate_values above j) = Some m ∧
    cell result k j = Some (Int.add e m).

(** State of [result] when the loops stand at row [i] and column [j]. *)
Definition cum_inv (energyMap : grid) (R C : nat) (i j : Z) (result : grid) : Prop :=
  rectangular result R C ∧
  vget result 0 = vget energyMap 0 ∧
  (∀ k j', i < k ∨ (k = i ∧ j <= j') → cell result k j' = cell energyMap k j') ∧
  (∀ k j', 1 <= k → k < i ∨ (k = i ∧ j' < j) → 0 <= j' < Z.of_nat C →
           cum_processed energyMap result k j').

(** Row [k] of the seam was used to choose the column of row [k - 1]: the
    least value [m] among the origins of column [c] is looked up in the whole
    of row [k - 1], and the first column that holds [m] is taken. *)
Definition traced (cumulativeEnergyMap : grid) (seam : vec) (k : Z) : Prop :=
  ∃ c above m,
    vget seam k = Some c ∧ vget cumulativeEnergyMap (k - 1) = Some above ∧
    minimum (candidate_values above c) = Some m ∧
    vget seam (k - 1) = Some (Z.of_nat (std_find above m)).

(** Row [k] of the image has lost the pixel of its seam column. *)
Definition carved (imageMap image' : grid) (seam : vec) (C : nat) (k : Z) : Prop :=
  ∃ c row,
    vget seam k = Some c ∧ 0 <= c < Z.of_nat C ∧ vget imageMap k = Some row ∧
    vget image' k = Some (delete (Z.to_nat c) row).

(** State of the loop of [seamCarver] when it stands at row [i]. *)
Definition carve_inv (imageMap cumulativeEnergyMap : grid) (R C : nat) (i : Z)
    (st : grid * vec) : Prop :=
  length st.1 = R ∧ length st.2 = R ∧
  (0 <= i → ∃ c, vget st.2 i = Some c ∧ 0 <= c < Z.of_nat C) ∧
  (∀ k, 0 <= k <= i → vget st.1 k = vget imageMap k) ∧
  (∀ k, i < k < Z.of_nat R → carved imageMap st.1 st.2 C k) ∧
  (∀ k, i < k < Z.of_nat R → 1 <= k → traced cumulativeEnergyMap st.2 k) ∧
  (∃ last, vget cumulativeEnergyMap (Z.of_nat R - 1) = Some last ∧
           vget st.2 (Z.of_nat R - 1) = Some (Z.of_nat (std_min_element last))).

(** ** Vocabulary of the further properties *)


(** Every energy lies in [[0, B]]. *)
Definition energies_within (B : Z) (g : grid) : Prop :=
  Forall (Forall (λ e, 0 <= e <= B)) g.

(** [path_to energyMap i j p cost]: [p] lists the columns of a connected
    path from row 0 down to the cell of row [i] and column [j] (one column
    per row, consecutive columns at most 1 apart), and [cost] is the sum of the
    energies of its cells. *)
Inductive path_to (energyMap : grid) : Z → Z → list Z → Z → Prop :=
| path_top j e :
    cell energyMap 0 j = Some e → path_to energyMap 0 j [j] e
| path_step i k j p cost e :
    path_to energyMap i k p cost → Z.abs (j - k) <= 1 →
    cell energyMap (i + 1) j = Some e →
    path_to energyMap (i + 1) j (p ++ [j]) (cost + e).



(** * Properties *)

(** Run one step of a computation in the option monad whose result [H] gives. *)
Ltac run H := rewrite H; cbn [mbind option_bind].

(** ** Machine integers *)

Lemma wrap_id z : Int.in_range z → Int.wrap z = z.
Proof.
  unfold Int.in_range, Int.wrap, Int.min, Int.max. intros H.
  rewrite Z.mod_small; lia.
Qed.

Lemma wrap_in_range z : Int.in_range (Int.wrap z).
Proof.
  unfold Int.in_range, Int.wrap, Int.min, Int.max.
  pose proof (Z.mod_pos_bound (z + 2147483648) 4294967296). lia.
Qed.

Lemma int_add_exact a b : Int.in_range (a + b) → Int.add a b = a + b.
Proof. apply wrap_id. Qed.

Lemma int_sub_exact a b : Int.in_range (a - b) → Int.sub a b = a - b.
Proof. apply wrap_id. Qed.

Lemma int_abs_exact a : Int.in_range (Z.abs a) → Int.abs a = Z.abs a.
Proof. apply wrap_id. Qed.

(** ** Vector accesses *)

Lemma vget_of_nat {A} (v : list A) (n : nat) : vget v (Z.of_nat n) = v !! n.
Proof.
  unfold vget. rewrite bool_decide_eq_true_2 by lia. by rewrite Nat2Z.id.
Qed.

Lemma vget_Some {A} (v : list A) k x :
  vget v k = Some x ↔ 0 <= k ∧ v !! Z.to_nat k = Some x.
Proof.
  unfold vget. destruct (bool_decide_reflect (0 <= k)) as [Hk | Hk].
  - tauto.
  - split; [done | tauto].
Qed.

Lemma vget_lt {A} (v : list A) k x : vget v k = Some x → 0 <= k < vsize v.
Proof.
  intros [Hk Hx]%vget_Some. apply lookup_lt_Some in Hx. unfold vsize. lia.
Qed.

Lemma vget_None {A} (v : list A) k : vget v k = None ↔ k < 0 ∨ vsize v <= k.
Proof.
  unfold vget, vsize. case_bool_decide.
  - rewrite lookup_ge_None. lia.
  - split; [lia | done].
Qed.

Lemma vget_is_Some {A} (v : list A) k : 0 <= k < vsize v → is_Some (vget v k).
Proof.
  intros H. destruct (vget v k) eqn:E; [eauto |].
  apply vget_None in E. lia.
Qed.

Lemma vset_Some {A} (v : list A) k x :
  0 <= k < vsize v → vset v k x = Some (<[Z.to_nat k := x]> v).
Proof. intros H. unfold vset. by rewrite bool_decide_eq_true_2. Qed.

(** ** Loop rules *)

Lemma for_up_inv {S} (P : Z → S → Prop) (body : Z → S → option S) fuel lo s :
  (∀ k t, lo <= k < lo + Z.of_nat fuel → P k t → ∃ t', body k t = Some t' ∧ P (k + 1) t') →
  P lo s →
  ∃ s', for_up fuel lo body s = Some s' ∧ P (lo + Z.of_nat fuel) s'.
Proof.
  revert lo s. induction fuel as [| fuel IH]; intros lo s Hbody Hs.
  - exists s. split; [done |]. by replace (lo + Z.of_nat 0) with lo by lia.
  - destruct (Hbody lo s) as (t & Ht & HP); [lia | done |].
    destruct (IH (lo + 1) t) as (s' & Hs' & HP'); [| done |].
    + intros k u Hk. apply Hbody. lia.
    + exists s'. cbn. rewrite Ht. cbn. split; [done |].
      by replace (lo + Z.of_nat (Datatypes.S fuel)) with (lo + 1 + Z.of_nat fuel) by lia.
Qed.

Lemma for_inv {S} (P : Z → S → Prop) (body : Z → S → option S) lo hi s :
  lo <= hi →
  (∀ k t, lo <= k < hi → P k t → ∃ t', body k t = Some t' ∧ P (k + 1) t') →
  P lo s →
  ∃ s', for_ lo hi body s = Some s' ∧ P hi s'.
Proof.
  intros Hle Hbody Hs. unfold for_.
  destruct (for_up_inv P body (Z.to_nat (hi - lo)) lo s) as (s' & Hs' & HP); [| done |].
  - intros k t Hk. apply Hbody. lia.
  - exists s'. split; [done |]. by replace hi with (lo + Z.of_nat (Z.to_nat (hi - lo))) by lia.
Qed.

Lemma for_down_from_inv {S} (P : Z → S → Prop) (body : Z → S → option S) fuel hi s :
  (∀ k t, hi - Z.of_nat fuel < k <= hi → P k t → ∃ t', body k t = Some t' ∧ P (k - 1) t') →
  P hi s →
  ∃ s', for_down_from fuel hi body s = Some s' ∧ P (hi - Z.of_nat fuel) s'.
Proof.
  revert hi s. induction fuel as [| fuel IH]; intros hi s Hbody Hs.
  - exists s. split; [done |]. by replace (hi - Z.of_nat 0) with hi by lia.
  - destruct (Hbody hi s) as (t & Ht & HP); [lia | done |].
    destruct (IH (hi - 1) t) as (s' & Hs' & HP'); [| done |].
    + intros k u Hk. apply Hbody. lia.
    + exists s'. cbn. rewrite Ht. cbn. split; [done |].
      by replace (hi - Z.of_nat (Datatypes.S fuel)) with (hi - 1 - Z.of_nat fuel) by lia.
Qed.

Lemma for_down_inv {S} (P : Z → S → Prop) (body : Z → S → option S) hi s :
  -1 <= hi →
  (∀ k t, 0 <= k <= hi → P k t → ∃ t', body k t = Some t' ∧ P (k - 1) t') →
  P hi s →
  ∃ s', for_down hi body s = Some s' ∧ P (-1) s'.
Proof.
  intros Hle Hbody Hs. unfold for_down.
  destruct (for_down_from_inv P body (Z.to_nat (hi + 1)) hi s) as (s' & Hs' & HP); [| done |].
  - intros k t Hk. apply Hbody. lia.
  - exists s'. split; [done |]. by replace (-1) with (hi - Z.of_nat (Z.to_nat (hi + 1))) by lia.
Qed.

Lemma seqZ_snoc k : 0 <= k → seqZ 0 (k + 1) = seqZ 0 k ++ [k].
Proof.
  intros Hk. rewrite seqZ_app by lia. by f_equal.
Qed.

(** A loop that only pushes one element per turn builds the list of them. *)
Lemma for_push_back {A} (body : Z → list A → option (list A)) (g : Z → A) n :
  0 <= n →
  (∀ k acc, 0 <= k < n → body k acc = Some (acc ++ [g k])) →
  for_ 0 n body [] = Some (g <$> seqZ 0 n).
Proof.
  intros Hn Hbody.
  destruct (for_inv (λ k acc, 0 <= k ∧ acc = g <$> seqZ 0 k) body 0 n [])
    as (s' & Hs' & _ & ->); [done | | | done].
  - intros k acc Hk [_ ->]. exists ((g <$> seqZ 0 k) ++ [g k]).
    split; [by apply Hbody |]. split; [lia |].
    by rewrite seqZ_snoc, fmap_app by lia.
  - split; [lia |]. by rewrite seqZ_nil.
Qed.

Lemma vget_fmap_seqZ {A} (g : Z → A) n k :
  vget (g <$> seqZ 0 n) k = if bool_decide (0 <= k < n) then Some (g k) else None.
Proof.
  unfold vget.
  destruct (bool_decide_reflect (0 <= k)) as [Hk | Hk];
    destruct (bool_decide_reflect (0 <= k < n)) as [Hn | Hn]; try done; try lia.
  - rewrite list_lookup_fmap, lookup_seqZ_lt by lia. cbn. f_equal. f_equal. lia.
  - rewrite list_lookup_fmap, lookup_seqZ_ge by lia. done.
Qed.

Lemma length_fmap_seqZ {A} (g : Z → A) (n : nat) : length (g <$> seqZ 0 (Z.of_nat n)) = n.
Proof. rewrite length_fmap, length_seqZ. lia. Qed.

(** ** Rectangular grids *)

Lemma rectangular_row g R C i row :
  rectangular g R C → vget g i = Some row → 0 <= i < Z.of_nat R ∧ vsize row = Z.of_nat C.
Proof.
  intros [HR HC] Hrow. split.
  - apply vget_lt in Hrow. unfold vsize in Hrow. lia.
  - apply vget_Some in Hrow as [_ Hrow].
    rewrite Forall_lookup in HC. unfold vsize. by rewrite (HC _ _ Hrow).
Qed.

Lemma rectangular_cell g R C i j :
  rectangular g R C → is_Some (cell g i j) ↔ 0 <= i < Z.of_nat R ∧ 0 <= j < Z.of_nat C.
Proof.
  intros Hrect. unfold cell. split.
  - intros [p Hp]. destruct (vget g i) as [row |] eqn:Hrow; [| done]. cbn in Hp.
    destruct (rectangular_row _ _ _ _ _ Hrect Hrow) as [Hi Hsz].
    apply vget_lt in Hp. lia.
  - intros [Hi Hj]. destruct (vget_is_Some g i) as [row Hrow].
    { destruct Hrect as [<- _]. done. }
    rewrite Hrow. cbn. apply vget_is_Some.
    destruct (rectangular_row _ _ _ _ _ Hrect Hrow) as [_ ->]. done.
Qed.

Lemma rectangular_cell_None g R C i j :
  rectangular g R C → ¬ (0 <= i < Z.of_nat R ∧ 0 <= j < Z.of_nat C) → cell g i j = None.
Proof.
  intros Hrect Hout. destruct (cell g i j) eqn:E; [| done].
  exfalso. apply Hout. eapply rectangular_cell; eauto.
Qed.

Lemma pixels_within_cell maxValue g i j p :
  pixels_within maxValue g → cell g i j = Some p → 0 <= p <= maxValue.
Proof.
  unfold pixels_within, cell. intros Hg Hp.
  destruct (vget g i) as [row |] eqn:Hrow; [| done]. cbn in Hp.
  apply vget_Some in Hrow as [_ Hrow]. apply vget_Some in Hp as [_ Hp].
  rewrite Forall_lookup in Hg. specialize (Hg _ _ Hrow).
  rewrite Forall_lookup in Hg. by apply (Hg _ _ Hp).
Qed.

(** ** initEnergyMap *)

Lemma energyPixel_rect imageMap R C i j p :
  rectangular imageMap R C → cell imageMap i j = Some p →
  energyPixel imageMap i j =
    Some (int_energy p (neighbour imageMap p i (j - 1)) (neighbour imageMap p i (j + 1))
                       (neighbour imageMap p (i - 1) j) (neighbour imageMap p (i + 1) j)).
Proof.
  intros Hrect Hp.
  assert (Hin : 0 <= i < Z.of_nat R ∧ 0 <= j < Z.of_nat C) by (eapply rectangular_cell; eauto).
  assert (Hnb : ∀ i' j', 0 <= i' < Z.of_nat R → 0 <= j' < Z.of_nat C →
            cell imageMap i' j' = Some (neighbour imageMap p i' j')).
  { intros i' j' Hi' Hj'. unfold neighbour.
    destruct (proj2 (rectangular_cell _ _ _ i' j' Hrect)) as [q ->]; done. }
  assert (Hout : ∀ i' j', ¬ (0 <= i' < Z.of_nat R ∧ 0 <= j' < Z.of_nat C) →
            neighbour imageMap p i' j' = p).
  { intros i' j' Hno. unfold neighbour. by rewrite (rectangular_cell_None _ _ _ _ _ Hrect Hno). }
  unfold energyPixel. unfold cell in Hp.
  destruct (vget imageMap i) as [row |] eqn:Hrow; [| done]. cbn in Hp. cbn.
  destruct (rectangular_row _ _ _ _ _ Hrect Hrow) as [_ Hsz].
  assert (Hrowcell : ∀ j', vget row j' = cell imageMap i j').
  { intros j'. unfold cell. by rewrite Hrow. }
  rewrite Hp. cbn.
  assert (HR : vsize imageMap = Z.of_nat R) by (destruct Hrect as [<- _]; done).
  assert (Hleft : (if bool_decide (j - 1 >= 0) then vget row (j - 1) else Some p)
                  = Some (neighbour imageMap p i (j - 1))).
  { destruct (bool_decide_reflect (j - 1 >= 0)).
    - rewrite Hrowcell. apply Hnb; lia.
    - rewrite Hout; [done | lia]. }
  assert (Hright : (if bool_decide (j + 1 < vsize row) then vget row (j + 1) else Some p)
                  = Some (neighbour imageMap p i (j + 1))).
  { destruct (bool_decide_reflect (j + 1 < vsize row)).
    - rewrite Hrowcell. apply Hnb; lia.
    - rewrite Hout; [done | lia]. }
  assert (Hup : (if bool_decide (i - 1 >= 0) then vget imageMap (i - 1) ≫= (λ r, vget r j)
                 else Some p) = Some (neighbour imageMap p (i - 1) j)).
  { destruct (bool_decide_reflect (i - 1 >= 0)).
    - apply (Hnb (i - 1) j); lia.
    - rewrite Hout; [done | lia]. }
  assert (Hdown : (if bool_decide (i + 1 < vsize imageMap)
                   then vget imageMap (i + 1) ≫= (λ r, vget r j)
                   else Some p) = Some (neighbour imageMap p (i + 1) j)).
  { destruct (bool_decide_reflect (i + 1 < vsize imageMap)).
    - apply (Hnb (i + 1) j); lia.
    - rewrite Hout; [done | lia]. }
  rewrite Hleft. cbn. rewrite Hright. cbn. rewrite Hup. cbn. rewrite Hdown. done.
Qed.

Lemma initEnergyMap_rect imageMap R C :
  rectangular imageMap R C →
  initEnergyMap imageMap =
    Some ((λ i, energy_of imageMap i <$> seqZ 0 (Z.of_nat C)) <$> seqZ 0 (Z.of_nat R)).
Proof.
  intros Hrect. unfold initEnergyMap.
  assert (HR : vsize imageMap = Z.of_nat R) by (destruct Hrect as [<- _]; done).
  rewrite HR. apply for_push_back; [lia |].
  intros i result Hi.
  destruct (vget_is_Some imageMap i) as [row Hrow]; [lia |].
  rewrite Hrow. cbn.
  destruct (rectangular_row _ _ _ _ _ Hrect Hrow) as [_ ->].
  rewrite (for_push_back _ (energy_of imageMap i)); [done | lia |].
  intros j rowResult Hj.
  destruct (proj2 (rectangular_cell _ _ _ i j Hrect)) as [p Hp]; [lia |].
  unfold energy_of. rewrite (energyPixel_rect _ _ _ _ _ _ Hrect Hp). done.
Qed.

Lemma rectangular_fmap_seqZ (g : Z → Z → Z) (R C : nat) :
  rectangular ((λ i, g i <$> seqZ 0 (Z.of_nat C)) <$> seqZ 0 (Z.of_nat R)) R C.
Proof.
  split.
  - apply length_fmap_seqZ.
  - apply Forall_fmap, Forall_forall. intros i _. apply length_fmap_seqZ.
Qed.

Lemma cell_fmap_seqZ (g : Z → Z → Z) (R C : Z) i j :
  0 <= i < R → 0 <= j < C →
  cell ((λ i, g i <$> seqZ 0 C) <$> seqZ 0 R) i j = Some (g i j).
Proof.
  intros Hi Hj. unfold cell.
  rewrite vget_fmap_seqZ, bool_decide_eq_true_2 by done. cbn.
  by rewrite vget_fmap_seqZ, bool_decide_eq_true_2.
Qed.

(** Within the pixel range no operation of [int_energy] overflows. *)
Lemma int_energy_exact maxValue p left right up down :
  4 * maxValue <= Int.max →
  0 <= p <= maxValue → 0 <= left <= maxValue → 0 <= right <= maxValue →
  0 <= up <= maxValue → 0 <= down <= maxValue →
  int_energy p left right up down =
    Z.abs (p - left) + Z.abs (p - right) + Z.abs (p - up) + Z.abs (p - down).
Proof.
  intros Hmax Hp Hl Hr Hu Hd. unfold int_energy.
  assert (Hs : ∀ q, 0 <= q <= maxValue → Int.abs (Int.sub p q) = Z.abs (p - q)).
  { intros q Hq.
    rewrite int_sub_exact by (unfold Int.in_range, Int.min, Int.max in *; lia).
    rewrite int_abs_exact by (unfold Int.in_range, Int.min, Int.max in *; lia).
    done. }
  rewrite !Hs by done.
  rewrite (int_add_exact (Z.abs (p - left)))
    by (unfold Int.in_range, Int.min, Int.max in *; lia).
  rewrite (int_add_exact (Z.abs (p - up)))
    by (unfold Int.in_range, Int.min, Int.max in *; lia).
  rewrite int_add_exact by (unfold Int.in_range, Int.min, Int.max in *; lia).
  lia.
Qed.

Lemma neighbour_within maxValue g p i j :
  pixels_within maxValue g → 0 <= p <= maxValue → 0 <= neighbour g p i j <= maxValue.
Proof.
  intros Hg Hp. unfold neighbour. destruct (cell g i j) as [q |] eqn:Hq; cbn; [| done].
  eapply pixels_within_cell; eauto.
Qed.

Lemma int_energy_own p : int_energy p p p p p = 0.
Proof. unfold int_energy, Int.sub. rewrite Z.sub_diag. reflexivity. Qed.

(** C3. On a rectangular non-empty intensity grid [initEnergyMap] returns a
    grid of the same shape whose cell [(i,j)] is
    |I(i,j)-left| + |I(i,j)-right| + |I(i,j)-up| + |I(i,j)-down|, a neighbour
    outside the grid being replaced by the pixel's own value, and the energy
    map of a 1x1 grid is [[0]].  The sum is first given in the [int]
    arithmetic of the program; when the pixels lie in [[0, maxValue]], the
    range [initImageMap] enforces, and [4 * maxValue] is representable, it is
    the sum of the absolute values in the integers, and every entry is
    non-negative. *)
Theorem initEnergyMap_spec (imageMap : grid) (R C : nat) :
  rectangular imageMap R C → (1 ≤ R)%nat → (1 ≤ C)%nat →
  ∃ energyMap,
    initEnergyMap imageMap = Some energyMap ∧
    rectangular energyMap R C ∧
    (∀ i j p, cell imageMap i j = Some p →
       cell energyMap i j =
         Some (int_energy p (neighbour imageMap p i (j - 1))
                            (neighbour imageMap p i (j + 1))
                            (neighbour imageMap p (i - 1) j)
                            (neighbour imageMap p (i + 1) j))) ∧
    (R = 1%nat → C = 1%nat → energyMap = [[0]]) ∧
    (∀ maxValue, pixels_within maxValue imageMap → 4 * maxValue <= Int.max →
       (∀ i j p, cell imageMap i j = Some p →
          cell energyMap i j =
            Some (Z.abs (p - neighbour imageMap p i (j - 1))
                  + Z.abs (p - neighbour imageMap p i (j + 1))
                  + Z.abs (p - neighbour imageMap p (i - 1) j)
                  + Z.abs (p - neighbour imageMap p (i + 1) j)))
       ∧ (∀ i j e, cell energyMap i j = Some e → 0 <= e)).
Proof.
  intros Hrect _ _. eexists. split; [by apply initEnergyMap_rect |].
  assert (Hcell : ∀ i j p, cell imageMap i j = Some p →
    cell ((λ i, energy_of imageMap i <$> seqZ 0 (Z.of_nat C)) <$> seqZ 0 (Z.of_nat R)) i j =
         Some (int_energy p (neighbour imageMap p i (j - 1))
                            (neighbour imageMap p i (j + 1))
                            (neighbour imageMap p (i - 1) j)
                            (neighbour imageMap p (i + 1) j))).
  { intros i j p Hp.
    assert (Hin : 0 <= i < Z.of_nat R ∧ 0 <= j < Z.of_nat C)
      by (eapply rectangular_cell; eauto).
    destruct Hin as [Hi Hj]. rewrite cell_fmap_seqZ by done. f_equal.
    unfold energy_of. by rewrite (energyPixel_rect _ _ _ _ _ _ Hrect Hp). }
  split; [apply rectangular_fmap_seqZ |]. split; [exact Hcell |]. split.
  - intros -> ->.
    destruct (proj2 (rectangular_cell _ _ _ 0 0 Hrect)) as [p Hp]; [lia |].
    specialize (Hcell 0 0 p Hp).
    replace (seqZ 0 (Z.of_nat 1)) with [0] in * by done.
    cbn in Hcell |- *. injection Hcell as ->.
    assert (Hout : ∀ i' j', ¬ (0 <= i' < 1 ∧ 0 <= j' < 1) → neighbour imageMap p i' j' = p).
    { intros i' j' Hno. unfold neighbour.
      rewrite (rectangular_cell_None _ 1 1); [done | done | lia]. }
    rewrite !Hout by lia. by rewrite int_energy_own.
  - intros maxValue Hpix Hmax.
    assert (Hexact : ∀ i j p, cell imageMap i j = Some p →
      cell ((λ i, energy_of imageMap i <$> seqZ 0 (Z.of_nat C)) <$> seqZ 0 (Z.of_nat R)) i j =
           Some (Z.abs (p - neighbour imageMap p i (j - 1))
                 + Z.abs (p - neighbour imageMap p i (j + 1))
                 + Z.abs (p - neighbour imageMap p (i - 1) j)
                 + Z.abs (p - neighbour imageMap p (i + 1) j))).
    { intros i j p Hp. rewrite (Hcell _ _ _ Hp). f_equal.
      pose proof (pixels_within_cell _ _ _ _ _ Hpix Hp) as Hpr.
      apply (int_energy_exact maxValue); auto using neighbour_within. }
    split; [exact Hexact |].
    intros i j e He.
    assert (Hin : 0 <= i < Z.of_nat R ∧ 0 <= j < Z.of_nat C).
    { eapply rectangular_cell; [apply rectangular_fmap_seqZ | eauto]. }
    destruct (proj2 (rectangular_cell _ _ _ i j Hrect) Hin) as [p Hp].
    rewrite (Hexact _ _ _ Hp) in He. injection He as <-. lia.
Qed.

(** ** std::min_element and std::find *)

Lemma std_min_element_from_spec pre l smallest least :
  first_min pre smallest least →
  ∃ m, first_min (pre ++ l) (std_min_element_from smallest least (length pre) l) m.
Proof.
  revert pre smallest least. induction l as [| x l IH]; intros pre smallest least Hpre.
  - exists least. by rewrite app_nil_r.
  - cbn. destruct Hpre as (Hlook & Hle & Hfirst).
    replace (pre ++ x :: l) with ((pre ++ [x]) ++ l) by (by rewrite <- app_assoc).
    replace (Datatypes.S (length pre)) with (length (pre ++ [x]))
      by (rewrite length_app; cbn; lia).
    destruct (Z.ltb_spec x least) as [Hlt | Hge]; apply IH; repeat split.
    + by rewrite lookup_app_r, Nat.sub_diag.
    + intros y [Hy | Hy%list_elem_of_singleton]%elem_of_app; [| lia].
      specialize (Hle y Hy). lia.
    + intros i y Hi Hy. rewrite lookup_app_l in Hy by done.
      specialize (Hle y (list_elem_of_lookup_2 _ _ _ Hy)). lia.
    + rewrite lookup_app_l; [done |]. by apply lookup_lt_Some in Hlook.
    + intros y [Hy | Hy%list_elem_of_singleton]%elem_of_app; [by apply Hle | lia].
    + intros i y Hi Hy. apply (Hfirst i y Hi).
      apply lookup_lt_Some in Hlook.
      rewrite lookup_app_l in Hy by lia. done.
Qed.

Lemma std_min_element_spec l :
  l ≠ [] → ∃ m, first_min l (std_min_element l) m.
Proof.
  destruct l as [| x l]; [done | intros _]. cbn.
  apply (std_min_element_from_spec [x] l 0%nat x). repeat split.
  - intros y Hy%list_elem_of_singleton. lia.
  - intros i y Hi. lia.
Qed.

Lemma minimum_spec l m :
  minimum l = Some m → m ∈ l ∧ ∀ x, x ∈ l → m <= x.
Proof.
  destruct l as [| x l]; [done |]. cbn. intros [= <-].
  induction l as [| y l [IHin IHle]]; cbn.
  - split; [apply list_elem_of_here |]. intros z Hz%list_elem_of_singleton. lia.
  - split.
    + destruct (Z.min_spec y (foldr Z.min x l)) as [[_ ->] | [_ ->]].
      * apply list_elem_of_further, list_elem_of_here.
      * apply elem_of_cons in IHin as [-> | Hin]; [apply list_elem_of_here |].
        by do 2 apply list_elem_of_further.
    + intros z Hz. apply elem_of_cons in Hz as [-> | Hz].
      * specialize (IHle x (list_elem_of_here _ _)). lia.
      * apply elem_of_cons in Hz as [-> | Hz]; [lia |].
        specialize (IHle z (list_elem_of_further _ _ _ Hz)). lia.
Qed.

(** What [*std::min_element(...)] reads is the least value of the list. *)
Lemma deref_std_min_element l :
  l ≠ [] → l !! std_min_element l = minimum l.
Proof.
  intros Hne. destruct (std_min_element_spec l Hne) as (m & Hm & Hle & _).
  destruct (minimum l) as [m' |] eqn:Hmin; [| by destruct l].
  destruct (minimum_spec _ _ Hmin) as [Hin' Hle'].
  rewrite Hm. f_equal.
  pose proof (Hle m' Hin'). pose proof (Hle' m (list_elem_of_lookup_2 _ _ _ Hm)). lia.
Qed.

Lemma std_find_spec l v :
  v ∈ l →
  l !! std_find l v = Some v ∧ ∀ i x, (i < std_find l v)%nat → l !! i = Some x → x ≠ v.
Proof.
  induction l as [| y l IH]; [by intros ?%elem_of_nil |]. intros Hin. cbn.
  destruct (Z.eqb_spec y v) as [-> | Hne].
  - split; [done |]. intros i x Hi. lia.
  - apply elem_of_cons in Hin as [-> | Hin]; [done |].
    destruct (IH Hin) as [Hl Hf]. split; [done |].
    intros [| i] x Hi Hx; cbn in Hx; [congruence |].
    apply (Hf i x); [lia | done].
Qed.

Lemma std_find_lt l v : v ∈ l → (std_find l v < length l)%nat.
Proof. intros Hin. destruct (std_find_spec l v Hin) as [Hl _]. by apply lookup_lt_Some in Hl. Qed.

(** ** The list of seam origins *)

Lemma candidate_columns_unfold C j :
  candidate_columns C j =
    (if bool_decide (0 <= j - 1 < C) then [j - 1] else [])
    ++ (if bool_decide (0 <= j < C) then [j] else [])
    ++ (if bool_decide (0 <= j + 1 < C) then [j + 1] else []).
Proof.
  unfold candidate_columns. rewrite !filter_cons, filter_nil, !bool_decide_decide.
  destruct (decide (0 <= j - 1 < C)); destruct (decide (0 <= j < C));
    destruct (decide (0 <= j + 1 < C)); done.
Qed.

Lemma validSeamOriginList_spec above j :
  0 <= j < vsize above →
  validSeamOriginList above (vsize above) j = Some (candidate_values above j)
  ∧ candidate_values above j ≠ []
  ∧ ∀ x, x ∈ candidate_values above j → x ∈ above.
Proof.
  intros Hj. unfold validSeamOriginList, candidate_values.
  rewrite candidate_columns_unfold.
  destruct (vget_is_Some above j Hj) as [x Hx].
  assert (Hmem : ∀ k y, vget above k = Some y → y ∈ above).
  { intros k y [_ Hy]%vget_Some. by eapply list_elem_of_lookup_2. }
  rewrite (bool_decide_eq_true_2 (0 <= j < vsize above)) by done.
  destruct (bool_decide_reflect (j - 1 >= 0)) as [Hl | Hl];
    destruct (bool_decide_reflect (j + 1 < vsize above)) as [Hr | Hr].
  - destruct (vget_is_Some above (j - 1)) as [a Ha]; [lia |].
    destruct (vget_is_Some above (j + 1)) as [b Hb]; [lia |].
    rewrite !bool_decide_eq_true_2 by lia. cbn. rewrite Ha, Hx, Hb. cbn.
    repeat split; [done |]. intros y Hy.
    repeat (apply elem_of_cons in Hy as [-> | Hy]; [by eauto |]). by apply elem_of_nil in Hy.
  - destruct (vget_is_Some above (j - 1)) as [a Ha]; [lia |].
    rewrite (bool_decide_eq_true_2 (0 <= j - 1 < _)) by lia.
    rewrite (bool_decide_eq_false_2 (0 <= j + 1 < _)) by lia.
    cbn. rewrite Ha, Hx. cbn. repeat split; [done |]. intros y Hy.
    repeat (apply elem_of_cons in Hy as [-> | Hy]; [by eauto |]). by apply elem_of_nil in Hy.
  - destruct (vget_is_Some above (j + 1)) as [b Hb]; [lia |].
    rewrite (bool_decide_eq_false_2 (0 <= j - 1 < _)) by lia.
    rewrite (bool_decide_eq_true_2 (0 <= j + 1 < _)) by lia.
    cbn. rewrite Hx, Hb. cbn. repeat split; [done |]. intros y Hy.
    repeat (apply elem_of_cons in Hy as [-> | Hy]; [by eauto |]). by apply elem_of_nil in Hy.
  - rewrite (bool_decide_eq_false_2 (0 <= j - 1 < _)) by lia.
    rewrite (bool_decide_eq_false_2 (0 <= j + 1 < _)) by lia.
    cbn. rewrite Hx. cbn. repeat split; [done |]. intros y Hy.
    repeat (apply elem_of_cons in Hy as [-> | Hy]; [by eauto |]). by apply elem_of_nil in Hy.
Qed.

(** The value both [initCumulativeEnergyMap] and [seamCarver] read through
    [*std::min_element(validSeamOriginList...)]. *)
Lemma least_origin above j :
  0 <= j < vsize above →
  ∃ m, validSeamOriginList above (vsize above) j = Some (candidate_values above j)
       ∧ candidate_values above j !! std_min_element (candidate_values above j) = Some m
       ∧ minimum (candidate_values above j) = Some m
       ∧ m ∈ above.
Proof.
  intros Hj. destruct (validSeamOriginList_spec above j Hj) as (Hv & Hne & Hin).
  pose proof (deref_std_min_element _ Hne) as Hd.
  destruct (minimum (candidate_values above j)) as [m |] eqn:Hmin.
  - exists m. repeat split; try done.
    apply Hin. by apply minimum_spec.
  - by destruct (candidate_values above j).
Qed.

(** ** In-place updates of a grid *)

Lemma vget_insert {A} (l : list A) i x k :
  0 <= i < vsize l →
  vget (<[Z.to_nat i := x]> l) k = if bool_decide (k = i) then Some x else vget l k.
Proof.
  intros Hi. unfold vget, vsize in *.
  destruct (bool_decide_reflect (k = i)) as [-> | Hne].
  - rewrite bool_decide_eq_true_2 by lia. apply list_lookup_insert_eq. lia.
  - destruct (bool_decide_reflect (0 <= k)); [| done].
    apply list_lookup_insert_ne. lia.
Qed.

Lemma cell_insert (result : grid) i row j v k j' :
  vget result i = Some row → 0 <= j < vsize row →
  cell (<[Z.to_nat i := <[Z.to_nat j := v]> row]> result) k j' =
    if bool_decide (k = i ∧ j' = j) then Some v else cell result k j'.
Proof.
  intros Hrow Hj. unfold cell.
  rewrite vget_insert by (by apply vget_lt in Hrow).
  destruct (bool_decide_reflect (k = i)) as [-> | Hne]; cbn.
  - rewrite Hrow. cbn. rewrite vget_insert by done.
    destruct (bool_decide_reflect (j' = j)) as [-> | Hne'].
    + by rewrite bool_decide_eq_true_2.
    + by rewrite bool_decide_eq_false_2 by tauto.
  - by rewrite bool_decide_eq_false_2 by tauto.
Qed.

Lemma rectangular_vget g R C i :
  rectangular g R C → 0 <= i < Z.of_nat R →
  ∃ row, vget g i = Some row ∧ vsize row = Z.of_nat C.
Proof.
  intros Hrect Hi. destruct (vget_is_Some g i) as [row Hrow].
  { destruct Hrect as [<- _]. done. }
  exists row. split; [done |]. by destruct (rectangular_row _ _ _ _ _ Hrect Hrow).
Qed.

(** ** initCumulativeEnergyMap *)

Lemma cum_inv_step energyMap R C i j result :
  rectangular energyMap R C →
  1 <= i < Z.of_nat R → 0 <= j < Z.of_nat C →
  cum_inv energyMap R C i j result →
  ∃ result',
    (above ← vget result (i - 1);
     erow ← vget energyMap i;
     origins ← validSeamOriginList above (vsize erow) j;
     least ← origins !! std_min_element origins;
     row ← vget result i;
     cur ← vget row j;
     row' ← vset row j (Int.add cur least);
     vset result i row') = Some result'
    ∧ cum_inv energyMap R C i (j + 1) result'.
Proof.
  intros HE Hi Hj (Hrect & Hrow0 & Hrest & Hdone).
  destruct (rectangular_vget _ _ _ (i - 1) Hrect) as (above & Habove & Hasz); [lia |].
  destruct (rectangular_vget _ _ _ i HE) as (erow & Herow & Hesz); [lia |].
  destruct (rectangular_vget _ _ _ i Hrect) as (row & Hrow & Hrsz); [lia |].
  destruct (least_origin above j) as (m & Hv & Hderef & Hmin & _); [lia |].
  destruct (vget_is_Some row j) as [cur Hcur]; [lia |].
  assert (Hcell : cell energyMap i j = Some cur).
  { rewrite <- Hrest by lia. unfold cell. by rewrite Hrow. }
  exists (<[Z.to_nat i := <[Z.to_nat j := Int.add cur m]> row]> result). split.
  - run Habove. run Herow. rewrite Hesz, <- Hasz. run Hv.
    run Hderef. run Hrow. run Hcur.
    rewrite vset_Some by lia. cbn [mbind option_bind]. apply vset_Some.
    destruct Hrect as [HR _]. unfold vsize. lia.
  - assert (Hget : ∀ k, k ≠ i →
        vget (<[Z.to_nat i := <[Z.to_nat j := Int.add cur m]> row]> result) k = vget result k).
    { intros k Hk. rewrite vget_insert by (by apply vget_lt in Hrow).
      by rewrite bool_decide_eq_false_2. }
    repeat split.
    + destruct Hrect as [HR _]. by rewrite length_insert.
    + destruct Hrect as [_ HC]. apply Forall_insert; [done |].
      rewrite length_insert. unfold vsize in Hrsz. lia.
    + rewrite Hget by lia. done.
    + intros k j' Hk. rewrite (cell_insert _ _ _ _ _ _ _ Hrow) by lia.
      rewrite bool_decide_eq_false_2 by lia. apply Hrest. lia.
    + intros k j' Hk1 Hk Hj'. rewrite <- (Z.add_comm 1) in Hk.
      destruct (decide (k = i ∧ j' = j)) as [[-> ->] | Hne].
      * exists above, cur, m. repeat split; try done.
        -- rewrite Hget by lia. done.
        -- rewrite (cell_insert _ _ _ _ _ _ _ Hrow) by lia.
           by rewrite bool_decide_eq_true_2.
      * destruct (Hdone k j') as (above' & e' & m' & Ha' & He' & Hm' & Hc'); [lia | lia | lia |].
        exists above', e', m'. repeat split; try done.
        -- rewrite Hget by lia. done.
        -- rewrite (cell_insert _ _ _ _ _ _ _ Hrow) by lia.
           by rewrite bool_decide_eq_false_2.
Qed.

Lemma cum_inv_next_row energyMap R C i result :
  cum_inv energyMap R C i (Z.of_nat C) result → cum_inv energyMap R C (i + 1) 0 result.
Proof.
  intros (Hrect & Hrow0 & Hrest & Hdone). repeat split; try done.
  - by destruct Hrect.
  - by destruct Hrect.
  - intros k j' Hk. apply Hrest. lia.
  - intros k j' Hk1 Hk Hj'. apply Hdone; lia.
Qed.

(** C4. On a rectangular energy grid with at least one row,
    [initCumulativeEnergyMap] returns a grid of the same shape whose row 0 is
    row 0 of the energy grid and whose cell [(i,j)], for [i > 0], is
    [energy(i,j)] plus the least of the cumulative values of row [i-1] at the
    columns among [j-1], [j], [j+1] that lie in the grid.  The sum is the
    [int] addition of the program, which is the mathematical sum whenever
    that one is representable. *)
Theorem initCumulativeEnergyMap_spec (energyMap : grid) (R C : nat) :
  rectangular energyMap R C → (1 ≤ R)%nat → (1 ≤ C)%nat →
  ∃ cumulativeEnergyMap,
    initCumulativeEnergyMap energyMap = Some cumulativeEnergyMap ∧
    rectangular cumulativeEnergyMap R C ∧
    vget cumulativeEnergyMap 0 = vget energyMap 0 ∧
    ∀ i j, 1 <= i < Z.of_nat R → 0 <= j < Z.of_nat C →
      ∃ above e m,
        vget cumulativeEnergyMap (i - 1) = Some above ∧
        cell energyMap i j = Some e ∧
        minimum (candidate_values above j) = Some m ∧
        cell cumulativeEnergyMap i j = Some (Int.add e m) ∧
        (Int.in_range (e + m) → cell cumulativeEnergyMap i j = Some (e + m)).
Proof.
  intros HE HR _. unfold initCumulativeEnergyMap.
  assert (Hsz : vsize energyMap = Z.of_nat R) by (destruct HE as [<- _]; done).
  destruct (for_inv (λ i result, cum_inv energyMap R C i 0 result)
              (λ i result,
                 row_i ← vget result i;
                 for_ 0 (vsize row_i) (λ j result,
                   above ← vget result (i - 1);
                   erow ← vget energyMap i;
                   origins ← validSeamOriginList above (vsize erow) j;
                   least ← origins !! std_min_element origins;
                   row ← vget result i;
                   cur ← vget row j;
                   row' ← vset row j (Int.add cur least);
                   vset result i row') result)
              1 (vsize energyMap) energyMap) as (CE & HCE & Hinv).
  - lia.
  - intros i result Hi Hinv.
    destruct Hinv as (Hrect & Hinv).
    destruct (rectangular_vget _ _ _ i Hrect) as (row_i & Hrow_i & Hisz); [lia |].
    run Hrow_i. rewrite Hisz.
    destruct (for_inv (λ j result, cum_inv energyMap R C i j result)
                (λ j result,
                   above ← vget result (i - 1);
                   erow ← vget energyMap i;
                   origins ← validSeamOriginList above (vsize erow) j;
                   least ← origins !! std_min_element origins;
                   row ← vget result i;
                   cur ← vget row j;
                   row' ← vset row j (Int.add cur least);
                   vset result i row')
                0 (Z.of_nat C) result) as (result' & Hres & Hinv').
    + lia.
    + intros j t Hj Ht. apply cum_inv_step; [done | lia | lia | done].
    + by split.
    + exists result'. split; [done |]. by apply cum_inv_next_row.
  - repeat split; try done.
    + by destruct HE.
    + by destruct HE.
    + intros k j' Hk1 Hk Hj'. lia.
  - exists CE. split; [done |]. destruct Hinv as (Hrect & Hrow0 & _ & Hdone).
    split; [done |]. split; [done |].
    intros i j Hi Hj.
    destruct (Hdone i j) as (above & e & m & Habove & He & Hm & Hcell); [lia | lia | lia |].
    exists above, e, m. repeat split; try done.
    intros Hfit. by rewrite Hcell, int_add_exact.
Qed.

(** ** The removal loop of seamCarver *)

Lemma swap_next_middle pre a b post :
  swap_next (pre ++ a :: b :: post) (Z.of_nat (length pre)) = Some (pre ++ b :: a :: post).
Proof.
  unfold swap_next.
  assert (Ha : vget (pre ++ a :: b :: post) (Z.of_nat (length pre)) = Some a).
  { rewrite vget_of_nat. by rewrite list_lookup_middle. }
  assert (Hb : vget (pre ++ a :: b :: post) (Z.of_nat (length pre) + 1) = Some b).
  { replace (Z.of_nat (length pre) + 1) with (Z.of_nat (length pre + 1)) by lia.
    rewrite vget_of_nat, lookup_app_r by lia.
    by replace (length pre + 1 - length pre)%nat with 1%nat by lia. }
  run Ha. run Hb.
  rewrite vset_Some by (unfold vsize; rewrite length_app; cbn; lia).
  cbn [mbind option_bind].
  rewrite vset_Some by (unfold vsize; rewrite length_insert, length_app; cbn; lia).
  f_equal. rewrite Nat2Z.id.
  replace (Z.to_nat (Z.of_nat (length pre) + 1)) with (length pre + 1)%nat by lia.
  replace (length pre) with (length pre + 0)%nat at 2 by lia.
  rewrite insert_app_r. cbn. by rewrite insert_app_r.
Qed.

(** With fuel for every element behind it, the loop carries the seam pixel
    to the end of the row and keeps the other pixels in order. *)
Lemma swap_to_end_middle post : ∀ pre a fuel,
  (length post ≤ fuel)%nat →
  swap_to_end fuel (vsize (pre ++ a :: post)) (pre ++ a :: post) (Z.of_nat (length pre))
  = Some (pre ++ post ++ [a]).
Proof.
  induction post as [| b post IH]; intros pre a fuel Hfuel.
  - destruct fuel; cbn [swap_to_end];
      rewrite bool_decide_eq_false_2; try done;
      unfold vsize; rewrite length_app; cbn; lia.
  - destruct fuel as [| fuel]; [cbn in Hfuel; lia |]. cbn [swap_to_end].
    rewrite bool_decide_eq_true_2 by (unfold vsize; rewrite length_app; cbn; lia).
    rewrite swap_next_middle. cbn [mbind option_bind].
    specialize (IH (pre ++ [b]) a fuel).
    rewrite <- !app_assoc in IH. cbn in IH.
    rewrite length_app in IH. cbn in IH.
    replace (Z.of_nat (length pre + 1)) with (Z.of_nat (length pre) + 1) in IH by lia.
    replace (vsize (pre ++ a :: b :: post)) with (vsize (pre ++ b :: a :: post))
      by (unfold vsize; rewrite !length_app; done).
    apply IH. cbn in Hfuel. lia.
Qed.

(** Removing the seam pixel of a row: swap to the end, then [pop_back]. *)
Lemma remove_seam_pixel_middle pre a post fuel :
  (length post ≤ fuel)%nat →
  swap_to_end fuel (vsize (pre ++ a :: post)) (pre ++ a :: post) (Z.of_nat (length pre))
    ≫= pop_back
  = Some (delete (length pre) (pre ++ a :: post)).
Proof.
  intros Hfuel. rewrite swap_to_end_middle by done. cbn [mbind option_bind].
  rewrite delete_middle. unfold pop_back.
  rewrite app_assoc, removelast_last.
  destruct ((pre ++ post) ++ [a]) eqn:E; [| done].
  apply app_eq_nil in E as [_ E]. done.
Qed.

Lemma remove_seam_pixel (row : vec) (c : Z) (fuel : nat) :
  0 <= c < vsize row → (length row ≤ fuel)%nat →
  swap_to_end fuel (vsize row) row c ≫= pop_back = Some (delete (Z.to_nat c) row).
Proof.
  intros Hc Hfuel.
  destruct (vget_is_Some row c Hc) as [a Ha]. apply vget_Some in Ha as [_ Ha].
  pose proof (take_drop_middle _ _ _ Ha) as Hsplit.
  assert (Hlen : length (take (Z.to_nat c) row) = Z.to_nat c).
  { rewrite length_take. unfold vsize in Hc. lia. }
  revert Hsplit Hlen Hfuel.
  generalize (take (Z.to_nat c) row) (drop (Datatypes.S (Z.to_nat c)) row).
  intros pre post <- Hlen Hfuel.
  replace c with (Z.of_nat (length pre)) at 1 by lia.
  rewrite <- Hlen. apply remove_seam_pixel_middle.
  rewrite length_app in Hfuel. cbn in Hfuel. lia.
Qed.

Lemma remove_seam_pixel_steps (row : vec) (c : Z) (fuel : nat) :
  0 <= c < vsize row → (length row ≤ fuel)%nat →
  ∃ swapped, swap_to_end fuel (vsize row) row c = Some swapped
             ∧ pop_back swapped = Some (delete (Z.to_nat c) row).
Proof.
  intros Hc Hfuel. pose proof (remove_seam_pixel row c fuel Hc Hfuel) as H.
  destruct (swap_to_end fuel (vsize row) row c) as [swapped |]; [| done].
  by exists swapped.
Qed.

(** ** The trace-back loop of seamCarver *)

Lemma carve_step imageMap cumulativeEnergyMap R C i st :
  rectangular imageMap R C → rectangular cumulativeEnergyMap R C →
  0 <= i < Z.of_nat R →
  carve_inv imageMap cumulativeEnergyMap R C i st →
  ∃ st', seamCarver_step cumulativeEnergyMap i st = Some st'
         ∧ carve_inv imageMap cumulativeEnergyMap R C (i - 1) st'.
Proof.
  intros HI HCE Hi. destruct st as [img sci].
  intros (Hlimg & Hlsci & Hcur & Hkeep & Hcarved & Htraced & Hseed). cbn [fst snd] in *.
  destruct Hcur as (c & Hc & Hcr); [lia |].
  destruct (rectangular_vget _ _ _ i HCE) as (ce_i & Hce_i & Hcesz); [lia |].
  destruct (rectangular_vget _ _ _ i HI) as (row & Hrow & Hrsz); [lia |].
  assert (Himg_i : vget img i = Some row) by (rewrite Hkeep by lia; done).
  destruct (remove_seam_pixel_steps row c (length ce_i)) as (swapped & Hswap & Hpop).
  { lia. } { unfold vsize in *. lia. }
  assert (Hset_img : vset img i (delete (Z.to_nat c) row)
                     = Some (<[Z.to_nat i := delete (Z.to_nat c) row]> img)).
  { apply vset_Some. unfold vsize. lia. }
  assert (Himg' : ∀ k, vget (<[Z.to_nat i := delete (Z.to_nat c) row]> img) k
                       = if bool_decide (k = i) then Some (delete (Z.to_nat c) row)
                         else vget img k).
  { intros k. apply vget_insert. unfold vsize. lia. }
  unfold seamCarver_step. cbv beta iota.
  destruct (bool_decide_reflect (i - 1 >= 0)) as [Hup | Hup].
  - destruct (rectangular_vget _ _ _ (i - 1) HCE) as (above & Habove & Hasz); [lia |].
    destruct (least_origin above c) as (m & Hv & Hderef & Hmin & Hin); [lia |].
    pose proof (std_find_lt above m Hin) as Hfind.
    eexists. split.
    { run Hc. run Hce_i. run Himg_i. rewrite Hcesz, <- Hrsz. run Hswap. run Hpop.
      run Hset_img. run Habove. rewrite Hrsz, <- Hasz. run Hv. run Hderef.
      rewrite vset_Some by (unfold vsize; lia). done. }
    assert (Hsci' : ∀ k, vget (<[Z.to_nat (i - 1) := Z.of_nat (std_find above m)]> sci) k
                         = if bool_decide (k = i - 1) then Some (Z.of_nat (std_find above m))
                           else vget sci k).
    { intros k. apply vget_insert. unfold vsize. lia. }
    unfold carve_inv. cbn [fst snd]. repeat split.
    + by rewrite length_insert.
    + by rewrite length_insert.
    + intros _. eexists. rewrite Hsci', bool_decide_eq_true_2 by done.
      split; [done |]. unfold vsize in Hasz. lia.
    + intros k Hk. rewrite Himg', bool_decide_eq_false_2 by lia. apply Hkeep. lia.
    + intros k Hk. destruct (decide (k = i)) as [-> | Hne].
      * exists c, row. rewrite Hsci', bool_decide_eq_false_2 by lia.
        rewrite Himg', bool_decide_eq_true_2 by done. done.
      * destruct (Hcarved k) as (c' & row' & Hc' & Hcr' & Hrow' & Himgk); [lia |].
        exists c', row'. rewrite Hsci', bool_decide_eq_false_2 by lia.
        rewrite Himg', bool_decide_eq_false_2 by lia. done.
    + intros k Hk Hk1. destruct (decide (k = i)) as [-> | Hne].
      * exists c, above, m. rewrite !Hsci'.
        rewrite bool_decide_eq_false_2 by lia. by rewrite bool_decide_eq_true_2.
      * destruct (Htraced k) as (c' & above' & m' & Hc' & Ha' & Hm' & Hs'); [lia | lia |].
        exists c', above', m'. rewrite !Hsci'.
        rewrite !bool_decide_eq_false_2 by lia. done.
    + destruct Hseed as (last & Hlast & Hs). exists last. split; [done |].
      rewrite Hsci', bool_decide_eq_false_2 by lia. done.
  - eexists. split.
    { run Hc. run Hce_i. run Himg_i. rewrite Hcesz, <- Hrsz. run Hswap. run Hpop.
      run Hset_img. done. }
    unfold carve_inv. cbn [fst snd]. repeat split.
    + by rewrite length_insert.
    + done.
    + intros ?. lia.
    + intros k Hk. lia.
    + intros k Hk. destruct (decide (k = i)) as [-> | Hne].
      * exists c, row. rewrite Himg', bool_decide_eq_true_2 by done. done.
      * destruct (Hcarved k) as (c' & row' & Hc' & Hcr' & Hrow' & Himgk); [lia |].
        exists c', row'. rewrite Himg', bool_decide_eq_false_2 by lia. done.
    + intros k Hk Hk1. apply Htraced; lia.
    + done.
Qed.

Lemma length_seam_column_indices_init n : length (seam_column_indices_init n) = n.
Proof. destruct n; cbn; [done |]. by rewrite length_replicate. Qed.

Lemma std_min_element_lt l : l ≠ [] → (std_min_element l < length l)%nat.
Proof.
  intros Hne. destruct (std_min_element_spec l Hne) as (m & Hm & _).
  by apply lookup_lt_Some in Hm.
Qed.

(** On same-shaped rectangular grids with a row and a column, [seamCarver]
    runs to its end and leaves every row carved. *)
Lemma seamCarver_run imageMap cumulativeEnergyMap R C :
  rectangular imageMap R C → rectangular cumulativeEnergyMap R C →
  (1 ≤ R)%nat → (1 ≤ C)%nat →
  ∃ image' seam,
    seamCarver imageMap cumulativeEnergyMap = Some (image', seam)
    ∧ carve_inv imageMap cumulativeEnergyMap R C (-1) (image', seam).
Proof.
  intros HI HCE HR HC. unfold seamCarver.
  assert (Hsz : vsize cumulativeEnergyMap = Z.of_nat R) by (destruct HCE as [<- _]; done).
  assert (Hlen : length cumulativeEnergyMap = R) by (by destruct HCE).
  rewrite Hsz, Hlen.
  destruct (rectangular_vget _ _ _ (Z.of_nat R - 1) HCE) as (last & Hlast & Hlsz); [lia |].
  run Hlast.
  assert (Hseed : (std_min_element last < C)%nat).
  { replace C with (length last) by (unfold vsize in Hlsz; lia).
    apply std_min_element_lt. intros ->. unfold vsize in Hlsz. cbn in Hlsz. lia. }
  rewrite vset_Some
    by (unfold vsize; rewrite length_seam_column_indices_init; lia).
  cbn [mbind option_bind].
  destruct (for_down_inv (carve_inv imageMap cumulativeEnergyMap R C)
              (seamCarver_step cumulativeEnergyMap) (Z.of_nat R - 1)
              (imageMap,
               <[Z.to_nat (Z.of_nat R - 1) := Z.of_nat (std_min_element last)]>
                 (seam_column_indices_init R)))
    as ([image' seam] & Hrun & Hinv).
  - lia.
  - intros k st Hk Hst. apply carve_step; [done | done | lia | done].
  - assert (Hget : vget (<[Z.to_nat (Z.of_nat R - 1) := Z.of_nat (std_min_element last)]>
                           (seam_column_indices_init R)) (Z.of_nat R - 1)
                   = Some (Z.of_nat (std_min_element last))).
    { rewrite vget_insert
        by (unfold vsize; rewrite length_seam_column_indices_init; lia).
      by rewrite bool_decide_eq_true_2. }
    unfold carve_inv. cbn [fst snd]. repeat split.
    + by destruct HI.
    + by rewrite length_insert, length_seam_column_indices_init.
    + intros _. eexists. split; [exact Hget | lia].
    + intros k Hk. lia.
    + intros k Hk. lia.
    + exists last. done.
  - exists image', seam. done.
Qed.

(** C10. On same-shaped rectangular grids with at least one row and one
    column every access [seamCarver] makes is in bounds (the run ends with a
    result), the seed taken from the minimum of the last row is a column of the
    grid, and so is every index stored in the seam: the row-wide search
    succeeds, the column [c'] it stores for row [k - 1] holds the value [m] it
    looked for, the least of the origins of the column of row [k]. *)
Theorem seamCarver_in_bounds (imageMap cumulativeEnergyMap : grid) (R C : nat) :
  rectangular imageMap R C → rectangular cumulativeEnergyMap R C →
  (1 ≤ R)%nat → (1 ≤ C)%nat →
  ∃ image' seam,
    seamCarver imageMap cumulativeEnergyMap = Some (image', seam) ∧
    length seam = R ∧
    (∃ last, vget cumulativeEnergyMap (Z.of_nat R - 1) = Some last ∧
             vget seam (Z.of_nat R - 1) = Some (Z.of_nat (std_min_element last)) ∧
             0 <= Z.of_nat (std_min_element last) < Z.of_nat C) ∧
    (∀ k c, vget seam k = Some c → 0 <= c < Z.of_nat C) ∧
    (∀ k, 1 <= k < Z.of_nat R →
       ∃ above c m c',
         vget cumulativeEnergyMap (k - 1) = Some above ∧
         vget seam k = Some c ∧
         minimum (candidate_values above c) = Some m ∧
         vget seam (k - 1) = Some c' ∧
         vget above c' = Some m).
Proof.
  intros HI HCE HR HC.
  destruct (seamCarver_run _ _ _ _ HI HCE HR HC) as (image' & seam & Hrun & Hinv).
  destruct Hinv as (Hlimg & Hlseam & _ & _ & Hcarved & Htraced & Hseed).
  cbn [fst snd] in *.
  assert (Hrange : ∀ k c, vget seam k = Some c → 0 <= c < Z.of_nat C).
  { intros k c Hc. pose proof (vget_lt _ _ _ Hc) as Hk. unfold vsize in Hk.
    destruct (Hcarved k) as (c' & row & Hc' & Hcr & _); [lia |]. congruence. }
  exists image', seam. repeat split; try done.
  - destruct Hseed as (last & Hlast & Hs). exists last. repeat split; try done.
    + lia.
    + by apply (Hrange _ _ Hs).
  - by apply (Hrange k c).
  - by apply (Hrange k c).
  - intros k Hk. destruct (Htraced k) as (c & above & m & Hc & Ha & Hm & Hs); [lia | lia |].
    exists above, c, m, (Z.of_nat (std_find above m)). repeat split; try done.
    rewrite vget_of_nat. apply std_find_spec.
    destruct (rectangular_row _ _ _ _ _ HCE Ha) as [_ Hasz].
    destruct (least_origin above c) as (m' & _ & _ & Hm' & Hin).
    { rewrite Hasz. by apply (Hrange k). }
    congruence.
Qed.

Lemma carved_all imageMap cumulativeEnergyMap R C image' seam :
  rectangular imageMap R C →
  carve_inv imageMap cumulativeEnergyMap R C (-1) (image', seam) →
  rectangular image' R (C - 1) ∧ length seam = R ∧
  ∀ i row, vget imageMap i = Some row →
    ∃ c, vget seam i = Some c ∧ 0 <= c < Z.of_nat C ∧
         vget image' i = Some (delete (Z.to_nat c) row).
Proof.
  intros HI (Hlimg & Hlseam & _ & _ & Hcarved & _). cbn [fst snd] in *.
  assert (Hrows : ∀ i row, vget imageMap i = Some row →
    ∃ c, vget seam i = Some c ∧ 0 <= c < Z.of_nat C ∧
         vget image' i = Some (delete (Z.to_nat c) row)).
  { intros i row Hrow. destruct (rectangular_row _ _ _ _ _ HI Hrow) as [Hi _].
    destruct (Hcarved i) as (c & row' & Hc & Hcr & Hrow' & Himg); [lia |].
    exists c. repeat split; try done; try lia. congruence. }
  repeat split; try done.
  apply Forall_lookup. intros n row' Hn.
  assert (Hlt : (n < R)%nat) by (apply lookup_lt_Some in Hn; lia).
  destruct (rectangular_vget _ _ _ (Z.of_nat n) HI) as (row & Hrow & Hrsz); [lia |].
  destruct (Hrows _ _ Hrow) as (c & _ & Hc & Himg).
  rewrite vget_of_nat in Himg. rewrite Hn in Himg. injection Himg as ->.
  rewrite length_delete.
  - unfold vsize in Hrsz. lia.
  - apply lookup_lt_is_Some. unfold vsize in Hrsz. lia.
Qed.

(** C5. On an intensity grid of [R] rows and [C ≥ 2] columns and a
    cumulative grid of the same shape, [seamCarver] leaves an [R x (C-1)]
    grid: every row is the original row from which the element at that row's
    seam column was deleted, the other elements keeping their values and their
    order. *)
Theorem seamCarver_removes_seam (imageMap cumulativeEnergyMap : grid) (R C : nat) :
  rectangular imageMap R C → rectangular cumulativeEnergyMap R C →
  (1 ≤ R)%nat → (2 ≤ C)%nat →
  ∃ image' seam,
    seamCarver imageMap cumulativeEnergyMap = Some (image', seam) ∧
    rectangular image' R (C - 1) ∧
    length seam = R ∧
    ∀ i row, vget imageMap i = Some row →
      ∃ c, vget seam i = Some c ∧ 0 <= c < Z.of_nat C ∧
           vget image' i = Some (take (Z.to_nat c) row ++ drop (Datatypes.S (Z.to_nat c)) row).
Proof.
  intros HI HCE HR HC.
  destruct (seamCarver_run imageMap cumulativeEnergyMap R C) as (image' & seam & Hrun & Hinv);
    [done | done | done | lia |].
  destruct (carved_all _ _ _ _ _ _ HI Hinv) as (Hrect & Hlen & Hrows).
  exists image', seam. repeat split; try done.
  - by destruct Hrect.
  - by destruct Hrect.
  - intros i row Hrow. destruct (Hrows i row Hrow) as (c & Hc & Hcr & Himg).
    exists c. rewrite <- delete_take_drop. done.
Qed.

(** ** The range check of initImageMap *)

Lemma in_pixel_range_check maxPixelValue pixel :
  bool_decide (pixel > maxPixelValue) || bool_decide (pixel < 0)
  = negb (in_pixel_range maxPixelValue pixel).
Proof.
  unfold in_pixel_range.
  destruct (bool_decide_reflect (pixel > maxPixelValue));
    destruct (bool_decide_reflect (pixel < 0));
    destruct (bool_decide_reflect (0 <= pixel <= maxPixelValue)); cbn; try done; lia.
Qed.

Lemma populate_pixel_run maxPixelValue j ssPixelData pixel rowResult c :
  populate_pixel maxPixelValue j (ssPixelData, pixel, rowResult) c =
    let '(ss, p) := extract_int ssPixelData pixel in
    if in_pixel_range maxPixelValue p then (Returned (ss, p, rowResult ++ [p]), c)
    else (Exited 1, Console (cout c) (cerr c ++ range_error maxPixelValue)).
Proof.
  unfold populate_pixel. destruct (extract_int ssPixelData pixel) as [ss p].
  rewrite in_pixel_range_check. by destruct (in_pixel_range maxPixelValue p).
Qed.

Lemma populate_pixels_run maxPixelValue n : ∀ j ssPixelData pixel rowResult c,
  for_up n j (populate_pixel maxPixelValue) (ssPixelData, pixel, rowResult) c =
    if forallb (in_pixel_range maxPixelValue) (extractions n ssPixelData pixel)
    then (Returned (after_extractions n ssPixelData pixel,
                    rowResult ++ extractions n ssPixelData pixel), c)
    else (Exited 1, Console (cout c) (cerr c ++ range_error maxPixelValue)).
Proof.
  induction n as [| n IH]; intros j ss pixel rowResult c.
  - cbn. by rewrite app_nil_r.
  - cbn [for_up extractions after_extractions]. unfold mbind, io_bind.
    rewrite populate_pixel_run.
    destruct (extract_int ss pixel) as [ss' p]. cbn [forallb].
    destruct (in_pixel_range maxPixelValue p); cbn [andb]; [| done].
    rewrite IH. by rewrite <- app_assoc.
Qed.

Lemma extractions_app a b : ∀ ssPixelData pixel,
  extractions (a + b) ssPixelData pixel =
    extractions a ssPixelData pixel
    ++ (let '(ss, p) := after_extractions a ssPixelData pixel in extractions b ss p).
Proof.
  induction a as [| a IH]; intros ss pixel; cbn.
  - done.
  - destruct (extract_int ss pixel) as [ss' p]. by rewrite IH.
Qed.

Lemma after_extractions_app a b : ∀ ssPixelData pixel,
  after_extractions (a + b) ssPixelData pixel =
    (let '(ss, p) := after_extractions a ssPixelData pixel in after_extractions b ss p).
Proof.
  induction a as [| a IH]; intros ss pixel; cbn.
  - done.
  - destruct (extract_int ss pixel) as [ss' p]. by rewrite IH.
Qed.

Lemma concat_extracted_rows m columns : ∀ ssPixelData pixel,
  concat (extracted_rows m columns ssPixelData pixel)
  = extractions (m * columns) ssPixelData pixel.
Proof.
  induction m as [| m IH]; intros ss pixel; cbn [extracted_rows concat Nat.mul].
  - done.
  - rewrite extractions_app.
    destruct (after_extractions columns ss pixel) as [ss' p]. by rewrite IH.
Qed.

Lemma rectangular_extracted_rows m columns : ∀ ssPixelData pixel,
  rectangular (extracted_rows m columns ssPixelData pixel) m columns.
Proof.
  assert (Hlen : ∀ n ss p, length (extractions n ss p) = n).
  { induction n as [| n IH]; intros ss p; cbn; [done |].
    destruct (extract_int ss p). cbn. by rewrite IH. }
  induction m as [| m IH]; intros ss pixel; cbn [extracted_rows].
  - by split.
  - destruct (after_extractions columns ss pixel) as [ss' p].
    destruct (IH ss' p) as [HR HC]. split; cbn.
    + by rewrite HR.
    + constructor; [apply Hlen | done].
Qed.

Lemma populate_rows_run (columns : Z) maxPixelValue m : ∀ i ssPixelData pixel result c,
  for_up m i (populate_row columns maxPixelValue) (ssPixelData, pixel, result) c =
    if forallb (in_pixel_range maxPixelValue)
         (extractions (m * Z.to_nat columns) ssPixelData pixel)
    then (Returned (after_extractions (m * Z.to_nat columns) ssPixelData pixel,
                    result ++ extracted_rows m (Z.to_nat columns) ssPixelData pixel), c)
    else (Exited 1, Console (cout c) (cerr c ++ range_error maxPixelValue)).
Proof.
  induction m as [| m IH]; intros i ss pixel result c.
  - cbn. by rewrite app_nil_r.
  - cbn [for_up extracted_rows Nat.mul]. unfold mbind at 1, io_bind at 1.
    unfold populate_row at 1. unfold mbind at 1, io_bind at 1.
    unfold for_. rewrite Z.sub_0_r, populate_pixels_run.
    rewrite extractions_app, after_extractions_app, forallb_app.
    destruct (forallb (in_pixel_range maxPixelValue)
                (extractions (Z.to_nat columns) ss pixel));
      cbn [andb]; [| done].
    destruct (after_extractions (Z.to_nat columns) ss pixel) as [ss' p].
    cbn [app]. unfold mret at 1, io_ret at 1. rewrite IH.
    by rewrite <- app_assoc.
Qed.

Lemma populate_run (rows columns : Z) maxPixelValue ssPixelData c :
  populate rows columns maxPixelValue ssPixelData c =
    if forallb (in_pixel_range maxPixelValue)
         (extractions (Z.to_nat rows * Z.to_nat columns) ssPixelData 0)
    then (Returned (extracted_rows (Z.to_nat rows) (Z.to_nat columns) ssPixelData 0), c)
    else (Exited 1, Console (cout c) (cerr c ++ range_error maxPixelValue)).
Proof.
  unfold populate, for_. unfold mbind, io_bind.
  rewrite Z.sub_0_r, populate_rows_run.
  by destruct (forallb (in_pixel_range maxPixelValue)
                 (extractions (Z.to_nat rows * Z.to_nat columns) ssPixelData 0)).
Qed.

(** The earlier revisions store whatever is read. *)
Lemma populate_unchecked_run (rows columns : Z) ssPixelData c :
  populate_unchecked rows columns ssPixelData c =
    (Returned (extracted_rows (Z.to_nat rows) (Z.to_nat columns) ssPixelData 0), c).
Proof.
  assert (Hinner : ∀ n j ss pixel temp c,
    for_up n j populate_unchecked_pixel (ss, pixel, temp) c
    = (Returned (after_extractions n ss pixel, temp ++ extractions n ss pixel), c)).
  { induction n as [| n IH]; intros j ss pixel temp c'.
    - cbn. by rewrite app_nil_r.
    - cbn [for_up extractions after_extractions]. unfold mbind at 1, io_bind at 1.
      unfold populate_unchecked_pixel at 1.
      destruct (extract_int ss pixel) as [ss' p]. unfold mret at 1, io_ret at 1.
      rewrite IH. by rewrite <- app_assoc. }
  assert (Houter : ∀ m i ss pixel result c,
    for_up m i (populate_unchecked_row columns) (ss, pixel, result) c
    = (Returned (after_extractions (m * Z.to_nat columns) ss pixel,
                 result ++ extracted_rows m (Z.to_nat columns) ss pixel), c)).
  { induction m as [| m IH]; intros i ss pixel result c'.
    - cbn. by rewrite app_nil_r.
    - cbn [for_up extracted_rows Nat.mul]. unfold mbind at 1, io_bind at 1.
      unfold populate_unchecked_row at 1. unfold mbind at 1, io_bind at 1.
      unfold for_ at 1.
      rewrite Z.sub_0_r, Hinner, after_extractions_app.
      destruct (after_extractions (Z.to_nat columns) ss pixel) as [ss' p].
      cbn [app]. unfold mret at 1, io_ret at 1. rewrite IH.
      by rewrite <- app_assoc. }
  unfold populate_unchecked, for_. unfold mbind, io_bind.
  rewrite Z.sub_0_r, Houter. done.
Qed.

Lemma forallb_in_pixel_range maxPixelValue (l : vec) :
  forallb (in_pixel_range maxPixelValue) l = true
  ↔ Forall (λ pixel, 0 <= pixel <= maxPixelValue) l.
Proof.
  induction l as [| p l IH]; cbn.
  - split; [constructor | done].
  - unfold in_pixel_range at 1. rewrite andb_true_iff, bool_decide_eq_true, IH.
    split.
    + intros [? ?]. by constructor.
    + by inversion 1.
Qed.

(** ** main *)

Lemma io_bind_returned {A B} (m : io A) (f : A → io B) c a c' :
  m c = (Returned a, c') → (m ≫= f) c = f a c'.
Proof. intros H. unfold mbind, io_bind. by rewrite H. Qed.

Lemma io_bind_exited {A B} (m : io A) (f : A → io B) c status c' :
  m c = (Exited status, c') → (m ≫= f) c = (Exited status, c').
Proof. intros H. unfold mbind, io_bind. by rewrite H. Qed.

(** Run the first action of a sequence in [io], [tac] giving its result. *)
Tactic Notation "io_step" tactic(tac) := erewrite io_bind_returned by tac; cbv beta.

Lemma display_pixel_run pixel c :
  (if bool_decide (pixel < 100) && bool_decide (pixel >= 10) then
     put_cout [Str " 0"; Num pixel; Str " "]
   else if bool_decide (pixel < 10) then
     put_cout [Str " 00"; Num pixel; Str " "]
   else
     put_cout [Str " "; Num pixel; Str " "]) c
  = (Returned tt, Console (cout c ++ display_pixel pixel) (cerr c)).
Proof.
  unfold display_pixel.
  destruct (bool_decide_reflect (pixel < 100)); destruct (bool_decide_reflect (pixel >= 10));
    destruct (bool_decide_reflect (10 <= pixel < 100));
    destruct (bool_decide_reflect (pixel < 10)); cbn [andb]; try done; lia.
Qed.

Lemma displayMap_run map c :
  displayMap map c = (Returned tt, Console (cout c ++ display_items map) (cerr c)).
Proof.
  unfold displayMap, display_items. revert c.
  induction map as [| row map IH]; intros c.
  - cbn. rewrite app_nil_r. by destruct c.
  - cbn [for_each fmap list_fmap concat].
    assert (Hrow : ∀ c, for_each row (λ pixel,
        if bool_decide (pixel < 100) && bool_decide (pixel >= 10) then
          put_cout [Str " 0"; Num pixel; Str " "]
        else if bool_decide (pixel < 10) then
          put_cout [Str " 00"; Num pixel; Str " "]
        else
          put_cout [Str " "; Num pixel; Str " "]) c
      = (Returned tt, Console (cout c ++ concat (display_pixel <$> row)) (cerr c))).
    { clear. induction row as [| pixel row IHrow]; intros c.
      - cbn. rewrite app_nil_r. by destruct c.
      - cbn [for_each fmap list_fmap concat].
        erewrite io_bind_returned by apply display_pixel_run.
        rewrite IHrow. cbn [cout cerr]. by rewrite <- app_assoc. }
    erewrite io_bind_returned.
    2: { erewrite io_bind_returned by apply Hrow. reflexivity. }
    rewrite IH. cbn [cout cerr]. by rewrite <- !app_assoc.
Qed.

Lemma read_pixel_lines_console fuel : ∀ pgmInputFile temp_line pixelData c o c',
  read_pixel_lines fuel pgmInputFile temp_line pixelData c = (o, c') → c' = c.
Proof.
  induction fuel as [| fuel IH]; intros input temp_line pixelData c o c' H;
    cbn [read_pixel_lines] in H.
  - destruct (eofbit input); cbv in H; congruence.
  - destruct (eofbit input); [cbv in H; congruence |].
    destruct (getline input temp_line) as [input' line].
    destruct (last_char line); [| cbv in H; congruence].
    by apply IH in H.
Qed.

(** When [initImageMap] returns, it has written nothing. *)
Lemma initImageMap_console fs filename c imageMap c' :
  initImageMap fs filename c = (Returned imageMap, c') → c' = c.
Proof.
  unfold initImageMap. intros H.
  destruct (fs filename) as [contents |]; [| cbv in H; congruence].
  destruct (getline (stream_of contents) EmptyString) as [in1 line1].
  destruct (negb (String.eqb line1 "P2")); [cbv in H; congruence |].
  destruct (peek in1) as [in2 next].
  destruct (match next with
            | Some "#"%char => getline in2 line1
            | _ => (in2, line1)
            end) as [in3 line2].
  destruct (getline in3 line2) as [in4 line3].
  destruct (extract_int (stream_of line3) 0) as [dim1 columns].
  destruct (extract_int dim1 0) as [dim2 rows].
  destruct (Z.eqb columns 0 || Z.eqb rows 0); [cbv in H; congruence |].
  destruct (getline in4 line3) as [in5 line4].
  destruct (stoi line4) as [maxPixelValue |]; [| cbv in H; congruence].
  unfold mbind, io_bind in H.
  destruct (read_pixel_lines _ in5 line4 EmptyString c) as [o c1] eqn:Hlines.
  apply read_pixel_lines_console in Hlines as ->.
  destruct o; try congruence.
  rewrite populate_run in H.
  destruct (forallb _ _); congruence.
Qed.

Lemma pipeline_Some imageMap E CE image' seam :
  pipeline imageMap = Some (E, CE, image', seam) →
  initEnergyMap imageMap = Some E ∧ initCumulativeEnergyMap E = Some CE
  ∧ seamCarver imageMap CE = Some (image', seam).
Proof.
  unfold pipeline. intros H.
  destruct (initEnergyMap imageMap) as [E' |] eqn:HE; [| done].
  cbn [mbind option_bind] in H.
  destruct (initCumulativeEnergyMap E') as [CE' |] eqn:HCE; [| done].
  cbn [mbind option_bind] in H.
  destruct (seamCarver imageMap CE') as [[I' seam'] |] eqn:Hcarve; [| done]. cbn in H.
  inversion H; subst. done.
Qed.

(** An [exit] of [initImageMap] ends [main]. *)
Lemma main_exits_with_initImageMap fs argv filename status c c' :
  argv !! 1%nat = Some filename →
  initImageMap fs filename
    (Console (cout c ++ banner)
       (if Z.eqb (Z.of_nat (length argv)) 4 then cerr c else cerr c ++ usage_error))
    = (Exited status, c') →
  main fs argv c = (Exited status, c').
Proof.
  intros Hfile Hload. unfold main.
  io_step reflexivity.
  destruct (Z.eqb (Z.of_nat (length argv)) 4); cbn [negb].
  - io_step reflexivity. rewrite Hfile. io_step reflexivity.
    cbn [cout cerr]. by apply io_bind_exited.
  - io_step reflexivity. rewrite Hfile. io_step reflexivity.
    cbn [cout cerr]. by apply io_bind_exited.
Qed.

(** Once the raster is loaded and the three stages have run, [main] prints
    the four maps and returns 0. *)
Lemma main_loaded fs argv filename imageMap E CE image' seam c :
  argv !! 1%nat = Some filename →
  let c1 := Console (cout c ++ banner)
              (if Z.eqb (Z.of_nat (length argv)) 4 then cerr c else cerr c ++ usage_error) in
  (initImageMap fs filename c1).1 = Returned imageMap →
  pipeline imageMap = Some (E, CE, image', seam) →
  main fs argv c =
    (Returned 0,
     Console (cout c ++ banner
              ++ [Str "Image Map For '"; Str filename; Str ("': " ++ nl)]
              ++ display_items imageMap
              ++ [Str (nl ++ "Energy Map: " ++ nl)] ++ display_items E
              ++ [Str (nl ++ "Cumulative Energy Map: " ++ nl)] ++ display_items CE
              ++ [Str (nl ++ "Seam-Carved Image: " ++ nl)] ++ display_items image')
             (cerr c1)).
Proof.
  intros Hfile c1 Hload Hpipe.
  destruct (pipeline_Some _ _ _ _ _ Hpipe) as (HE & HCE & Hcarve).
  assert (Hload' : initImageMap fs filename c1 = (Returned imageMap, c1)).
  { destruct (initImageMap fs filename c1) as [o c2] eqn:Hrun. cbn in Hload. subst o.
    by rewrite (initImageMap_console _ _ _ _ _ Hrun). }
  assert (Hstart : ∀ (k : string → io Z),
            (put_cout banner ;;
             (if negb (Z.eqb (Z.of_nat (length argv)) 4) then put_cerr usage_error else mret tt) ;;
             filename ← defined (argv !! 1%nat); k filename) c = k filename c1).
  { intros k. io_step reflexivity. unfold c1.
    destruct (Z.eqb (Z.of_nat (length argv)) 4); cbn [negb].
    - io_step reflexivity. rewrite Hfile. io_step reflexivity. by destruct c.
    - io_step reflexivity. rewrite Hfile. io_step reflexivity. done. }
  unfold main. rewrite Hstart.
  io_step (apply Hload').
  io_step reflexivity.
  io_step (apply displayMap_run).
  rewrite HE. io_step reflexivity.
  io_step reflexivity.
  io_step (apply displayMap_run).
  rewrite HCE. io_step reflexivity.
  io_step reflexivity.
  io_step (apply displayMap_run).
  rewrite Hcarve. io_step reflexivity.
  io_step reflexivity.
  io_step (apply displayMap_run).
  unfold c1. cbn [cout cerr fst]. unfold mret, io_ret. f_equal. f_equal.
  by rewrite <- !app_assoc.
Qed.

(** C9, as the code has it.  An invocation with a wrong number of arguments
    writes the usage message to [cerr], and [main] does not stop on that
    account.  When the arguments still name a file, [main] goes on to load it:
    an [exit] of [initImageMap] ends the program with the status of that exit,
    and once the raster is loaded and the three stages have run, [main] has
    printed the four maps and returns 0, the usage message being all there is
    on [cerr].  When they name no file ([argc] is 0 or 1), the [std::string]
    that [initImageMap] takes is built from the null pointer [argv[1]] after
    the message is written, which is undefined: no raster is loaded. *)
Theorem main_wrong_argument_count (fs : filesystem) (argv : list string) (c : console) :
  length argv ≠ 4%nat →
  let reported :=
    [Str ("error: invalid command-line arguments" ++ nl);
     Str ("format of valid program invocation: ./a [pgm image file] [# vertical seams to remove] [# horizontal seams to remove]" ++ nl)] in
  let c1 := Console (cout c ++ banner) (cerr c ++ reported) in
  (argv !! 1%nat = None → main fs argv c = (Undefined, c1))
  ∧ (∀ filename, argv !! 1%nat = Some filename →
       (∀ status c2, initImageMap fs filename c1 = (Exited status, c2) →
          main fs argv c = (Exited status, c2))
       ∧ (∀ imageMap E CE image' seam,
            (initImageMap fs filename c1).1 = Returned imageMap →
            pipeline imageMap = Some (E, CE, image', seam) →
            main fs argv c =
              (Returned 0,
               Console (cout c ++ banner
                        ++ [Str "Image Map For '"; Str filename; Str ("': " ++ nl)]
                        ++ display_items imageMap
                        ++ [Str (nl ++ "Energy Map: " ++ nl)] ++ display_items E
                        ++ [Str (nl ++ "Cumulative Energy Map: " ++ nl)] ++ display_items CE
                        ++ [Str (nl ++ "Seam-Carved Image: " ++ nl)] ++ display_items image')
                       (cerr c ++ reported)))).
Proof.
  intros Hargc reported c1.
  assert (Hcount : Z.eqb (Z.of_nat (length argv)) 4 = false) by (apply Z.eqb_neq; lia).
  split; [| intros filename Hfile; split].
  - intros Hnone. unfold main.
    io_step reflexivity.
    rewrite Hcount. cbn [negb]. io_step reflexivity.
    rewrite Hnone. reflexivity.
  - intros status c2 Hexit. apply (main_exits_with_initImageMap _ _ filename); [done |].
    by rewrite Hcount.
  - intros imageMap E CE image' seam Hload Hpipe.
    rewrite (main_loaded fs argv filename imageMap E CE image' seam c Hfile).
    + by rewrite Hcount.
    + by rewrite Hcount.
    + done.
Qed.

(** With no file name among the arguments [main] loads no raster: after the
    banner and the usage message the run is undefined. *)
Lemma main_without_file_name_undefined :
  length ["./a"] ≠ 4%nat
  ∧ main example_fs ["./a"] (Console [] [])
    = (Undefined,
       Console banner
         [Str ("error: invalid command-line arguments" ++ nl);
          Str ("format of valid program invocation: ./a [pgm image file] [# vertical seams to remove] [# horizontal seams to remove]" ++ nl)]).
Proof. split; [cbn; lia | vm_compute; reflexivity]. Qed.

(** The range check seen from [main]: the process ends with status 1 after
    the banner, and the message names the range of the header. *)
Lemma main_out_of_range_example :
  main (λ _, Some example_pgm_out_of_range) ["./a"; "image.pgm"; "1"; "0"] (Console [] [])
  = (Exited 1, Console banner (range_error 255)).
Proof. vm_compute. reflexivity. Qed.

(** ** The range check of initImageMap on a raster file *)

Lemma read_line_newline line rest :
  newline_free line = true → read_line (line ++ nl ++ rest) = (line, Some rest).
Proof.
  change (nl ++ rest)%string with (String newline rest).
  induction line as [| ch line IH]; intros Hfree.
  - reflexivity.
  - cbn [newline_free] in Hfree. apply andb_true_iff in Hfree as [Hch Hline].
    apply negb_true_iff in Hch. cbn [append read_line]. by rewrite Hch, IH.
Qed.

Lemma read_line_last line : newline_free line = true → read_line line = (line, None).
Proof.
  induction line as [| ch line IH]; intros Hfree.
  - reflexivity.
  - cbn [newline_free] in Hfree. apply andb_true_iff in Hfree as [Hch Hline].
    apply negb_true_iff in Hch. cbn [read_line]. by rewrite Hch, IH.
Qed.

(** [getline] takes a line that a newline ends off the stream. *)
Lemma getline_line line rest str :
  newline_free line = true →
  getline (stream_of (line ++ nl ++ rest)) str = (stream_of rest, line).
Proof.
  intros Hfree. unfold getline, stream_of, good. cbn [eofbit failbit buffer negb andb].
  by rewrite read_line_newline.
Qed.

(** [getline] on the line that ends the file: [eofbit] is set. *)
Lemma getline_last line str :
  newline_free line = true →
  getline (stream_of line) str = (IStream EmptyString true (String.eqb line EmptyString), line).
Proof.
  intros Hfree. unfold getline, stream_of, good. cbn [eofbit failbit buffer negb andb].
  by rewrite read_line_last.
Qed.

Lemma last_char_is_Some line : line ≠ EmptyString → is_Some (last_char line).
Proof.
  induction line as [| ch line IH]; [done | intros _].
  destruct line as [| ch' line]; [by eexists |].
  cbn [last_char]. by apply IH.
Qed.

Lemma read_pixel_lines_at_eof fuel buf fail temp_line pixelData c :
  read_pixel_lines fuel (IStream buf true fail) temp_line pixelData c = (Returned pixelData, c).
Proof. by destruct fuel. Qed.

(** The loop of [initImageMap] that gathers the pixel data, on lines none
    of which is empty. *)
Lemma read_pixel_lines_lines lines : ∀ fuel temp_line pixelData c,
  lines ≠ [] →
  Forall (λ line, line ≠ EmptyString ∧ newline_free line = true) lines →
  (length lines ≤ fuel)%nat →
  read_pixel_lines fuel (stream_of (String.concat nl lines)) temp_line pixelData c
  = (Returned (fold_left (λ pixelData line, (pixelData ++ spaced line)%string) lines pixelData),
     c).
Proof.
  induction lines as [| line lines IH]; intros fuel temp_line pixelData c Hne Hlines Hfuel;
    [done |].
  apply Forall_cons_1 in Hlines as [[Hline Hfree] Hlines].
  destruct fuel as [| fuel]; [cbn in Hfuel; lia |].
  destruct (last_char_is_Some line Hline) as [ch Hch].
  assert (Hspaced : (if negb (Ascii.eqb ch " ") then (line ++ " ")%string else line)
                    = spaced line) by (unfold spaced; by rewrite Hch).
  destruct lines as [| line' lines].
  - change (String.concat nl [line]) with line.
    cbn [read_pixel_lines stream_of eofbit]. fold (stream_of line).
    rewrite getline_last by done. rewrite Hch, Hspaced.
    by rewrite read_pixel_lines_at_eof.
  - change (String.concat nl (line :: line' :: lines))
      with (line ++ nl ++ String.concat nl (line' :: lines))%string.
    cbn [read_pixel_lines stream_of eofbit].
    fold (stream_of (line ++ nl ++ String.concat nl (line' :: lines))).
    rewrite getline_line by done. rewrite Hch, Hspaced.
    rewrite IH; [done | done | done | cbn in Hfuel |- *; lia].
Qed.

Lemma length_append (s1 s2 : string) :
  String.length (s1 ++ s2) = (String.length s1 + String.length s2)%nat.
Proof. induction s1 as [| ch s1 IH]; cbn; [done | by rewrite IH]. Qed.

(** One turn of the loop for each character of the file that is left, and
    one more, are enough for its lines. *)
Lemma length_lines_le lines :
  (length lines ≤ Datatypes.S (String.length (String.concat nl lines)))%nat.
Proof.
  induction lines as [| line lines IH]; [cbn; lia |].
  destruct lines as [| line' lines]; [cbn; lia |].
  change (String.concat nl (line :: line' :: lines))
    with (line ++ nl ++ String.concat nl (line' :: lines))%string.
  rewrite !length_append. cbn [length] in *. change (String.length nl) with 1%nat. lia.
Qed.

(** The line after the format is no comment. *)
Lemma peek_no_comment (pgmInputFile : istream) (next : option ascii) (temp_line : string) :
  next ≠ Some "#"%char →
  match next with
  | Some "#"%char => getline pgmInputFile temp_line
  | _ => (pgmInputFile, temp_line)
  end = (pgmInputFile, temp_line).
Proof.
  intros Hnext. destruct next as [[[] [] [] [] [] [] [] []] |]; try reflexivity.
  by destruct Hnext.
Qed.

Lemma peek_line line rest :
  peek (stream_of (line ++ nl ++ rest))
  = (stream_of (line ++ nl ++ rest), Some (default newline (String.get 0 line))).
Proof. by destruct line. Qed.

Lemma getline_comment text rest str :
  newline_free text = true →
  getline (stream_of ("#" ++ text ++ nl ++ rest)) str = (stream_of rest, ("#" ++ text)%string).
Proof. intros Hfree. by apply (getline_line (String "#" text)). Qed.

(** After the header of a raster file [initImageMap] gathers the pixel data
    from the lines that are left and runs the loops over them with the numbers
    of the header. *)
Lemma initImageMap_header fs filename comment dims maxline lines columns rows maxPixelValue c :
  fs filename = Some (pgm_text comment dims maxline lines) →
  match comment with
  | Some text => newline_free text = true
  | None => String.get 0 dims ≠ Some "#"%char
  end →
  newline_free dims = true → newline_free maxline = true →
  header_dimensions dims = (columns, rows) → columns ≠ 0 → rows ≠ 0 →
  stoi maxline = Some maxPixelValue →
  initImageMap fs filename c
  = (pixelData ← read_pixel_lines (Datatypes.S (String.length (String.concat nl lines)))
                   (stream_of (String.concat nl lines)) maxline EmptyString;
     populate rows columns maxPixelValue (stream_of pixelData)) c.
Proof.
  intros Hfs Hcomment Hdims Hmaxline Hheader Hcolumns Hrows Hmax.
  assert (Hraster : ∀ line2 : string,
    (let '(pgmInputFile, temp_line) :=
       getline (stream_of (dims ++ nl ++ maxline ++ nl ++ String.concat nl lines)) line2 in
     let dimensions := stream_of temp_line in
     let '(dimensions, columns) := extract_int dimensions 0 in
     let '(dimensions, rows) := extract_int dimensions 0 in
     if Z.eqb columns 0 || Z.eqb rows 0 then
       put_cerr [Str ("error: a problem occured in reading the pgm file dimensions" ++ nl);
                 Str ("please ensure the data format outlined in the project description is strictly adhered to " ++ nl)] ;;
       exit 1
     else
       let '(pgmInputFile, temp_line) := getline pgmInputFile temp_line in
       match stoi temp_line with
       | None => abort
       | Some maxPixelValue =>
           pixelData ← read_pixel_lines (Datatypes.S (String.length (buffer pgmInputFile)))
                         pgmInputFile temp_line EmptyString;
           populate rows columns maxPixelValue (stream_of pixelData)
       end) c
    = (pixelData ← read_pixel_lines (Datatypes.S (String.length (String.concat nl lines)))
                     (stream_of (String.concat nl lines)) maxline EmptyString;
       populate rows columns maxPixelValue (stream_of pixelData)) c).
  { intros line2. rewrite (getline_line dims) by done. cbv beta iota zeta.
    unfold header_dimensions in Hheader.
    destruct (extract_int (stream_of dims) 0) as [d1 columns'].
    destruct (extract_int d1 0) as [d2 rows']. injection Hheader as -> ->.
    rewrite (proj2 (Z.eqb_neq columns 0)), (proj2 (Z.eqb_neq rows 0)) by done. cbn [orb].
    rewrite (getline_line maxline) by done. cbv beta iota. rewrite Hmax. done. }
  unfold initImageMap. rewrite Hfs. unfold pgm_text. cbv zeta.
  rewrite (getline_line "P2") by reflexivity. cbv beta iota.
  rewrite String.eqb_refl. cbn [negb].
  destruct comment as [text |].
  - change (peek (stream_of ("#" ++ text ++ nl ++ dims ++ nl ++ maxline ++ nl
                             ++ String.concat nl lines)))
      with (stream_of ("#" ++ text ++ nl ++ dims ++ nl ++ maxline ++ nl
                       ++ String.concat nl lines), Some "#"%char).
    cbv beta iota. rewrite getline_comment by done.
    apply Hraster.
  - rewrite peek_line. cbv beta.
    destruct (String.get 0 dims) as [ch |] eqn:Hch.
    + cbn [default]. cbv iota.
      rewrite (peek_no_comment _ (Some ch)) by congruence.
      apply Hraster.
    + cbn [default]. cbv iota.
      rewrite (peek_no_comment _ (Some newline)) by (vm_compute; congruence).
      apply Hraster.
Qed.

(** On a raster file none of whose lines of pixels is empty, [initImageMap]
    comes down to the loops over the pixel data. *)
Lemma initImageMap_raster fs filename comment dims maxline lines columns rows maxPixelValue c :
  fs filename = Some (pgm_text comment dims maxline lines) →
  match comment with
  | Some text => newline_free text = true
  | None => String.get 0 dims ≠ Some "#"%char
  end →
  newline_free dims = true → newline_free maxline = true →
  lines ≠ [] →
  Forall (λ line, line ≠ EmptyString ∧ newline_free line = true) lines →
  header_dimensions dims = (columns, rows) → columns ≠ 0 → rows ≠ 0 →
  stoi maxline = Some maxPixelValue →
  initImageMap fs filename c
  = populate rows columns maxPixelValue (stream_of (pixel_data lines)) c.
Proof.
  intros Hfs Hcomment Hdims Hmaxline Hne Hlines Hheader Hcolumns Hrows Hmax.
  rewrite (initImageMap_header fs filename comment dims maxline lines columns rows
             maxPixelValue) by done.
  erewrite io_bind_returned; [reflexivity |].
  apply read_pixel_lines_lines; [done | done |]. apply length_lines_le.
Qed.

(** C8. On a raster file (the format line, an optional comment line, the
    dimensions, the maximum [maxPixelValue] of the header, then the lines of
    pixels) [initImageMap] checks every value it parses, [rows * columns] of
    them, against the maximum declared in the header.  When one of them lies
    outside [[0, maxPixelValue]], the message that names this range, with the
    maximum of the header in it, is written to [cerr] and the process ends
    through [exit(1)], also seen from [main]; when all of them lie inside,
    they are accepted: the image map made of them is returned and nothing is
    written. *)
Theorem initImageMap_range_check (fs : filesystem) (filename : string)
    (comment : option string) (dims maxline : string) (lines : list string)
    (columns rows maxPixelValue : Z) (c : console) :
  fs filename = Some (pgm_text comment dims maxline lines) →
  match comment with
  | Some text => newline_free text = true
  | None => String.get 0 dims ≠ Some "#"%char
  end →
  newline_free dims = true → newline_free maxline = true →
  lines ≠ [] →
  Forall (λ line, line ≠ EmptyString ∧ newline_free line = true) lines →
  header_dimensions dims = (columns, rows) → columns ≠ 0 → rows ≠ 0 →
  stoi maxline = Some maxPixelValue →
  let parsed :=
    extractions (Z.to_nat rows * Z.to_nat columns) (stream_of (pixel_data lines)) 0 in
  let message :=
    [Str "error: a pixel value exists in the image data which falls outside the given acceptable range of [0, ";
     Num maxPixelValue;
     Str ("]" ++ nl)] in
  (Forall (λ pixel, 0 <= pixel <= maxPixelValue) parsed →
     ∃ result,
       initImageMap fs filename c = (Returned result, c)
       ∧ concat result = parsed
       ∧ rectangular result (Z.to_nat rows) (Z.to_nat columns))
  ∧ (¬ Forall (λ pixel, 0 <= pixel <= maxPixelValue) parsed →
     initImageMap fs filename c = (Exited 1, Console (cout c) (cerr c ++ message))
     ∧ ∀ argv, argv !! 1%nat = Some filename → length argv = 4%nat →
         main fs argv c = (Exited 1, Console (cout c ++ banner) (cerr c ++ message))).
Proof.
  intros Hfs Hcomment Hdims Hmaxline Hne Hlines Hheader Hcolumns Hrows Hmax parsed message.
  assert (Hrun : ∀ c, initImageMap fs filename c =
            if forallb (in_pixel_range maxPixelValue) parsed
            then (Returned (extracted_rows (Z.to_nat rows) (Z.to_nat columns)
                              (stream_of (pixel_data lines)) 0), c)
            else (Exited 1, Console (cout c) (cerr c ++ message))).
  { intros c'.
    rewrite (initImageMap_raster fs filename comment dims maxline lines columns rows
               maxPixelValue) by done.
    apply populate_run. }
  split.
  - intros Hok. exists (extracted_rows (Z.to_nat rows) (Z.to_nat columns)
                          (stream_of (pixel_data lines)) 0).
    rewrite Hrun, (proj2 (forallb_in_pixel_range _ _) Hok).
    split; [done |]. split; [apply concat_extracted_rows | apply rectangular_extracted_rows].
  - intros Hbad.
    assert (Hcheck : forallb (in_pixel_range maxPixelValue) parsed = false).
    { destruct (forallb (in_pixel_range maxPixelValue) parsed) eqn:E; [| done].
      exfalso. apply Hbad. by apply forallb_in_pixel_range. }
    split; [by rewrite Hrun, Hcheck |].
    intros argv Hfile Hargc. apply (main_exits_with_initImageMap _ _ filename); [done |].
    rewrite Hargc. change (Z.of_nat 4 =? 4) with true. cbv iota.
    by rewrite Hrun, Hcheck.
Qed.

(** ** The worked example *)

(** C6. On the grid [[1,2,3],[4,5,6],[7,8,9]] the three stages give the
    energy grid [[4,5,4],[7,8,7],[4,5,4]], the cumulative grid
    [[4,5,4],[11,12,11],[15,16,15]], the seam of column 0 in every row and
    the image [[2,3],[5,6],[8,9]]. *)
Theorem pipeline_example :
  pipeline [[1; 2; 3]; [4; 5; 6]; [7; 8; 9]] =
    Some ([[4; 5; 4]; [7; 8; 7]; [4; 5; 4]],
          [[4; 5; 4]; [11; 12; 11]; [15; 16; 15]],
          [[2; 3]; [5; 6]; [8; 9]],
          [0; 0; 0]).
Proof. vm_compute. reflexivity. Qed.

(** ** The row-wide search of the trace-back *)

(** C1. The seam [seamCarver] identifies need not satisfy the adjacency
    invariant.  On the image [[0,0,5,0,0],[0,1,5,0,0]] the cumulative grid is
    [[0,6,10,5,0],[1,6,14,5,0]]: the seam ends in column 4 of row 1, the least
    origin value is 0 (column 4 of row 0), and the search of 0 in the whole of
    row 0 stops at column 0.  The seam has one entry per row, but columns 0
    and 4 are not adjacent. *)
Theorem seamCarver_seam_not_adjacent :
  pipeline [[0; 0; 5; 0; 0]; [0; 1; 5; 0; 0]] =
    Some ([[0; 6; 10; 5; 0]; [1; 6; 9; 5; 0]],
          [[0; 6; 10; 5; 0]; [1; 6; 14; 5; 0]],
          [[0; 5; 0; 0]; [0; 1; 5; 0]],
          [0; 4])
  ∧ length [0; 4] = length [[0; 0; 5; 0; 0]; [0; 1; 5; 0; 0]]
  ∧ ¬ adjacent [0; 4].
Proof.
  split; [vm_compute; reflexivity |]. split; [reflexivity |].
  cbn. intros [H _]. lia.
Qed.

(** C2. The seed of [seamCarver] is the one of the reference backtrace, the
    step is not: on the cumulative grid [[0,6,10,5,0],[1,6,14,5,0]] the
    reference backtrace goes from column 4 to column 4, the leftmost of the
    candidates 3 and 4 that holds the least value 0, while [seamCarver] stores
    column 0, the leftmost column of the whole row that holds 0. *)
Theorem seamCarver_differs_from_reference_backtrace :
  initEnergyMap [[0; 0; 5; 0; 0]; [0; 1; 5; 0; 0]] ≫= initCumulativeEnergyMap
    = Some [[0; 6; 10; 5; 0]; [1; 6; 14; 5; 0]]
  ∧ snd <$> seamCarver [[0; 0; 5; 0; 0]; [0; 1; 5; 0; 0]]
                       [[0; 6; 10; 5; 0]; [1; 6; 14; 5; 0]] = Some [0; 4]
  ∧ reference_backtrace [[0; 6; 10; 5; 0]; [1; 6; 14; 5; 0]] = Some [4; 4].
Proof. repeat split; vm_compute; reflexivity. Qed.

Lemma head_filter_first {A} (P : A → Prop) `{!∀ x, Decision (P x)} l1 x l2 :
  Forall (λ y, ¬ P y) l1 → P x → head (filter P (l1 ++ x :: l2)) = Some x.
Proof.
  intros Hl1 Hx. induction Hl1 as [| y l1 Hy _ IH]; cbn [app].
  - by rewrite filter_cons_True.
  - by rewrite filter_cons_False.
Qed.

(** The seed of [seamCarver] is the seed of the reference backtrace. *)
Lemma reference_seed_std_min_element last :
  last ≠ [] → reference_seed last = Some (Z.of_nat (std_min_element last)).
Proof.
  intros Hne. unfold reference_seed.
  destruct (std_min_element_spec last Hne) as (m & Hfirst).
  pose proof Hfirst as (Hm & Hle & Hbefore).
  rewrite <- (deref_std_min_element last Hne), Hm. cbn [mbind option_bind].
  pose proof (lookup_lt_Some _ _ _ Hm) as Hlt.
  set (r := Z.of_nat (std_min_element last)).
  replace (vsize last) with (r + (vsize last - r)) by lia.
  rewrite seqZ_app by (unfold vsize, r; lia).
  rewrite (seqZ_cons (0 + r)) by (unfold vsize, r; lia).
  apply head_filter_first.
  - apply Forall_seqZ. intros k Hk Hget.
    apply vget_Some in Hget as [_ Hget].
    specialize (Hbefore (Z.to_nat k) m). unfold r in Hk.
    specialize (Hbefore ltac:(lia) Hget). lia.
  - cbn. unfold r. by rewrite vget_of_nat.
Qed.

(** ** Grids of one column *)

Lemma rectangular_no_column (g : grid) R : rectangular g R 0 → g = replicate R [].
Proof.
  intros [<- Hrows]. induction Hrows as [| row g Hrow _ IH]; cbn; [done |].
  apply nil_length_inv in Hrow as ->. by rewrite <- IH.
Qed.

Lemma all_zero (seam : vec) R :
  length seam = R → (∀ k c, vget seam k = Some c → 0 <= c < 1) → seam = replicate R 0.
Proof.
  intros <- Hzero. apply list_eq. intros n.
  destruct (seam !! n) as [c |] eqn:Hn.
  - pose proof (lookup_lt_Some _ _ _ Hn) as Hlt.
    rewrite lookup_replicate_2 by done.
    specialize (Hzero (Z.of_nat n) c). rewrite vget_of_nat in Hzero.
    specialize (Hzero Hn). f_equal. lia.
  - symmetry. apply lookup_replicate_None. by apply lookup_ge_None.
Qed.

(** C7, as the code has it.  [seamCarver] checks nothing: on a grid of one
    column (and at least one row) it reports no violation, it returns, leaving
    every row empty and a seam of zeros, and nothing is written. *)
Theorem seamCarver_one_column_silent (imageMap cumulativeEnergyMap : grid) (R : nat)
    (c : console) :
  rectangular imageMap R 1 → rectangular cumulativeEnergyMap R 1 → (1 ≤ R)%nat →
  defined (seamCarver imageMap cumulativeEnergyMap) c
    = (Returned (replicate R [], replicate R 0), c)
  ∧ ¬ reports_violation (defined (seamCarver imageMap cumulativeEnergyMap)) c.
Proof.
  intros HI HCE HR.
  destruct (seamCarver_run imageMap cumulativeEnergyMap R 1) as (image' & seam & Hrun & Hinv);
    [done | done | done | lia |].
  destruct (carved_all _ _ _ _ _ _ HI Hinv) as (Hrect & Hlen & Hrows).
  assert (Himage : image' = replicate R []) by (by apply rectangular_no_column).
  assert (Hseam : seam = replicate R 0).
  { apply all_zero; [done |]. intros k c' Hc'.
    pose proof (vget_lt _ _ _ Hc') as Hk. unfold vsize in Hk.
    destruct (rectangular_vget _ _ _ k HI) as (row & Hrow & _); [lia |].
    destruct (Hrows k row Hrow) as (c'' & Hc'' & Hcr & _).
    rewrite Hc' in Hc''. injection Hc'' as <-. lia. }
  assert (Hdef : defined (seamCarver imageMap cumulativeEnergyMap) c
                 = (Returned (replicate R [], replicate R 0), c)).
  { rewrite Hrun, Himage, Hseam. done. }
  split; [done |].
  unfold reports_violation. rewrite Hdef. cbn [fst snd].
  intros [Hcerr | [(status & _ & Hexit) | Habort]]; congruence.
Qed.

(** C7, as it is worded, fails: on the one-column image [[7],[8]] with its
    cumulative grid [[1],[2]] the run of [seamCarver] reports nothing. *)
Lemma seamCarver_one_column_unreported :
  initEnergyMap [[7]; [8]] ≫= initCumulativeEnergyMap = Some [[1]; [2]]
  ∧ ¬ reports_violation (defined (seamCarver [[7]; [8]] [[1]; [2]])) (Console [] []).
Proof.
  split; [vm_compute; reflexivity |].
  unfold reports_violation.
  replace (defined (seamCarver [[7]; [8]] [[1]; [2]]) (Console [] []))
    with (Returned ([[]; []] : grid, [0; 0]), Console [] [])
    by (vm_compute; reflexivity).
  cbn [fst snd]. intros [Hcerr | [(status & _ & Hexit) | Habort]]; congruence.
Qed.

(** ** The theorems at concrete inputs *)

Lemma initEnergyMap_spec_witness :
  rectangular [[1; 2; 3]; [4; 5; 6]; [7; 8; 9]] 3 3
  ∧ ∃ energyMap,
      initEnergyMap [[1; 2; 3]; [4; 5; 6]; [7; 8; 9]] = Some energyMap
      ∧ rectangular energyMap 3 3
      ∧ (∀ i j e, cell energyMap i j = Some e → 0 <= e).
Proof.
  assert (Hrect : rectangular [[1; 2; 3]; [4; 5; 6]; [7; 8; 9]] 3 3).
  { split; [reflexivity | repeat constructor]. }
  assert (Hpix : pixels_within 255 [[1; 2; 3]; [4; 5; 6]; [7; 8; 9]]).
  { unfold pixels_within. repeat constructor; lia. }
  assert (Hmax : 4 * 255 <= Int.max) by (unfold Int.max; lia).
  split; [done |].
  destruct (initEnergyMap_spec [[1; 2; 3]; [4; 5; 6]; [7; 8; 9]] 3 3
              Hrect ltac:(lia) ltac:(lia))
    as (energyMap & Hrun & HErect & _ & _ & Hexact).
  destruct (Hexact 255 Hpix Hmax) as [_ Hnonneg].
  exists energyMap. done.
Defined.

Lemma initCumulativeEnergyMap_spec_witness :
  rectangular [[4; 5; 4]; [7; 8; 7]; [4; 5; 4]] 3 3
  ∧ ∃ cumulativeEnergyMap,
      initCumulativeEnergyMap [[4; 5; 4]; [7; 8; 7]; [4; 5; 4]] = Some cumulativeEnergyMap
      ∧ rectangular cumulativeEnergyMap 3 3
      ∧ vget cumulativeEnergyMap 0 = vget [[4; 5; 4]; [7; 8; 7]; [4; 5; 4]] 0.
Proof.
  assert (Hrect : rectangular [[4; 5; 4]; [7; 8; 7]; [4; 5; 4]] 3 3).
  { split; [reflexivity | repeat constructor]. }
  split; [done |].
  destruct (initCumulativeEnergyMap_spec [[4; 5; 4]; [7; 8; 7]; [4; 5; 4]] 3 3
              Hrect ltac:(lia) ltac:(lia))
    as (CE & Hrun & HCErect & Hrow0 & _).
  exists CE. done.
Defined.

Lemma seamCarver_removes_seam_witness :
  (rectangular [[1; 2; 3]; [4; 5; 6]; [7; 8; 9]] 3 3
   ∧ rectangular [[4; 5; 4]; [11; 12; 11]; [15; 16; 15]] 3 3)
  ∧ ∃ image' seam,
      seamCarver [[1; 2; 3]; [4; 5; 6]; [7; 8; 9]] [[4; 5; 4]; [11; 12; 11]; [15; 16; 15]]
        = Some (image', seam)
      ∧ rectangular image' 3 2 ∧ length seam = 3%nat.
Proof.
  assert (HI : rectangular [[1; 2; 3]; [4; 5; 6]; [7; 8; 9]] 3 3).
  { split; [reflexivity | repeat constructor]. }
  assert (HCE : rectangular [[4; 5; 4]; [11; 12; 11]; [15; 16; 15]] 3 3).
  { split; [reflexivity | repeat constructor]. }
  split; [done |].
  destruct (seamCarver_removes_seam _ _ 3 3 HI HCE ltac:(lia) ltac:(lia))
    as (image' & seam & Hrun & Hrect & Hlen & _).
  exists image', seam. done.
Defined.

Lemma seamCarver_in_bounds_witness :
  (rectangular [[0; 0; 5; 0; 0]; [0; 1; 5; 0; 0]] 2 5
   ∧ rectangular [[0; 6; 10; 5; 0]; [1; 6; 14; 5; 0]] 2 5)
  ∧ ∃ image' seam,
      seamCarver [[0; 0; 5; 0; 0]; [0; 1; 5; 0; 0]] [[0; 6; 10; 5; 0]; [1; 6; 14; 5; 0]]
        = Some (image', seam)
      ∧ length seam = 2%nat
      ∧ ∀ k c, vget seam k = Some c → 0 <= c < 5.
Proof.
  assert (HI : rectangular [[0; 0; 5; 0; 0]; [0; 1; 5; 0; 0]] 2 5).
  { split; [reflexivity | repeat constructor]. }
  assert (HCE : rectangular [[0; 6; 10; 5; 0]; [1; 6; 14; 5; 0]] 2 5).
  { split; [reflexivity | repeat constructor]. }
  split; [done |].
  destruct (seamCarver_in_bounds _ _ 2 5 HI HCE ltac:(lia) ltac:(lia))
    as (image' & seam & Hrun & Hlen & _ & Hrange & _).
  exists image', seam. done.
Defined.

Lemma seamCarver_one_column_silent_witness :
  (rectangular [[7]; [8]] 2 1 ∧ rectangular [[1]; [2]] 2 1)
  ∧ defined (seamCarver [[7]; [8]] [[1]; [2]]) (Console [] [])
    = (Returned ([[]; []], [0; 0]), Console [] []).
Proof.
  assert (HI : rectangular [[7]; [8]] 2 1).
  { split; [reflexivity | repeat constructor]. }
  assert (HCE : rectangular [[1]; [2]] 2 1).
  { split; [reflexivity | repeat constructor]. }
  split; [done |].
  apply (seamCarver_one_column_silent [[7]; [8]] [[1]; [2]] 2 (Console [] []) HI HCE).
  lia.
Defined.

Lemma initImageMap_range_check_witness :
  (∃ result,
     initImageMap example_fs "image.pgm" (Console [] []) = (Returned result, Console [] [])
     ∧ concat result = [1; 2; 3; 4; 5; 6; 7; 8; 9])
  ∧ initImageMap (λ _, Some example_pgm_out_of_range) "image.pgm" (Console [] [])
    = (Exited 1,
       Console []
         [Str "error: a pixel value exists in the image data which falls outside the given acceptable range of [0, ";
          Num 255; Str ("]" ++ nl)]).
Proof.
  split.
  - assert (Hlines : Forall (λ line, line ≠ EmptyString ∧ newline_free line = true)
                       ["1 2 3"; "4 5 6"; "7 8 9"]) by (repeat constructor; done).
    destruct (initImageMap_range_check example_fs "image.pgm"
                (Some " Created by IrfanView") "3 3" "255" ["1 2 3"; "4 5 6"; "7 8 9"]
                3 3 255 (Console [] [])
                eq_refl eq_refl eq_refl eq_refl ltac:(done) Hlines eq_refl
                ltac:(done) ltac:(done) eq_refl) as [Hok _].
    destruct Hok as (result & Hrun & Hconcat & _).
    + replace (extractions (Z.to_nat 3 * Z.to_nat 3)
                 (stream_of (pixel_data ["1 2 3"; "4 5 6"; "7 8 9"])) 0)
        with [1; 2; 3; 4; 5; 6; 7; 8; 9] by (vm_compute; reflexivity).
      repeat constructor; lia.
    + exists result. split; [exact Hrun |]. rewrite Hconcat. vm_compute. reflexivity.
  - assert (Hlines : Forall (λ line, line ≠ EmptyString ∧ newline_free line = true)
                       ["1 256 3"]) by (repeat constructor; done).
    assert (Hdims : String.get 0 "3 1" ≠ Some "#"%char) by done.
    destruct (initImageMap_range_check (λ _, Some example_pgm_out_of_range) "image.pgm"
                None "3 1" "255" ["1 256 3"] 3 1 255 (Console [] [])
                eq_refl Hdims eq_refl eq_refl ltac:(done) Hlines eq_refl
                ltac:(done) ltac:(done) eq_refl) as [_ Hbad].
    apply Hbad.
    replace (extractions (Z.to_nat 1 * Z.to_nat 3) (stream_of (pixel_data ["1 256 3"])) 0)
      with [1; 256; 3] by (vm_compute; reflexivity).
    intros Hall. inversion Hall as [| ? ? _ Hrest]; subst.
    inversion Hrest as [| ? ? H256 _]; subst. lia.
Defined.

Lemma main_wrong_argument_count_witness :
  length ["./a"; "image.pgm"] ≠ 4%nat
  ∧ main example_fs ["./a"; "image.pgm"] (Console [] [])
    = (Returned 0,
       Console (banner
                ++ [Str "Image Map For '"; Str "image.pgm"; Str ("': " ++ nl)]
                ++ display_items [[1; 2; 3]; [4; 5; 6]; [7; 8; 9]]
                ++ [Str (nl ++ "Energy Map: " ++ nl)]
                ++ display_items [[4; 5; 4]; [7; 8; 7]; [4; 5; 4]]
                ++ [Str (nl ++ "Cumulative Energy Map: " ++ nl)]
                ++ display_items [[4; 5; 4]; [11; 12; 11]; [15; 16; 15]]
                ++ [Str (nl ++ "Seam-Carved Image: " ++ nl)]
                ++ display_items [[2; 3]; [5; 6]; [8; 9]])
               [Str ("error: invalid command-line arguments" ++ nl);
                Str ("format of valid program invocation: ./a [pgm image file] [# vertical seams to remove] [# horizontal seams to remove]" ++ nl)]).
Proof.
  assert (Hargc : length ["./a"; "image.pgm"] ≠ 4%nat) by (cbn; lia).
  split; [exact Hargc |].
  destruct (main_wrong_argument_count example_fs ["./a"; "image.pgm"] (Console [] []) Hargc)
    as [_ Hfile].
  destruct (Hfile "image.pgm" eq_refl) as [_ Hloaded].
  apply (Hloaded [[1; 2; 3]; [4; 5; 6]; [7; 8; 9]]
           [[4; 5; 4]; [7; 8; 7]; [4; 5; 4]]
           [[4; 5; 4]; [11; 12; 11]; [15; 16; 15]]
           [[2; 3]; [5; 6]; [8; 9]] [0; 0; 0]).
  - vm_compute. reflexivity.
  - vm_compute. reflexivity.
Defined.

(** * Further properties of the code *)

(** ** Where initEnergyMap is defined *)








(** ** The cells of the cumulative energy map *)

Lemma initCumulativeEnergyMap_cells (energyMap : grid) (R C : nat) :
  rectangular energyMap R C → (1 ≤ R)%nat →
  ∃ cumulativeEnergyMap,
    initCumulativeEnergyMap energyMap = Some cumulativeEnergyMap ∧
    rectangular cumulativeEnergyMap R C ∧
    (∀ j, cell cumulativeEnergyMap 0 j = cell energyMap 0 j) ∧
    ∀ i j, 1 <= i < Z.of_nat R → 0 <= j < Z.of_nat C →
      cum_processed energyMap cumulativeEnergyMap i j.
Proof.
  intros HE HR. unfold initCumulativeEnergyMap.
  assert (Hsz : vsize energyMap = Z.of_nat R) by (destruct HE as [<- _]; done).
  destruct (for_inv (λ i result, cum_inv energyMap R C i 0 result)
              (λ i result,
                 row_i ← vget result i;
                 for_ 0 (vsize row_i) (λ j result,
                   above ← vget result (i - 1);
                   erow ← vget energyMap i;
                   origins ← validSeamOriginList above (vsize erow) j;
                   least ← origins !! std_min_element origins;
                   row ← vget result i;
                   cur ← vget row j;
                   row' ← vset row j (Int.add cur least);
                   vset result i row') result)
              1 (vsize energyMap) energyMap) as (CE & HCE & Hinv).
  - lia.
  - intros i result Hi Hinv.
    destruct Hinv as (Hrect & Hinv).
    destruct (rectangular_vget _ _ _ i Hrect) as (row_i & Hrow_i & Hisz); [lia |].
    run Hrow_i. rewrite Hisz.
    destruct (for_inv (λ j result, cum_inv energyMap R C i j result)
                (λ j result,
                   above ← vget result (i - 1);
                   erow ← vget energyMap i;
                   origins ← validSeamOriginList above (vsize erow) j;
                   least ← origins !! std_min_element origins;
                   row ← vget result i;
                   cur ← vget row j;
                   row' ← vset row j (Int.add cur least);
                   vset result i row')
                0 (Z.of_nat C) result) as (result' & Hres & Hinv').
    + lia.
    + intros j t Hj Ht. apply cum_inv_step; [done | lia | lia | done].
    + by split.
    + exists result'. split; [done |]. by apply cum_inv_next_row.
  - repeat split; try done.
    + by destruct HE.
    + by destruct HE.
    + intros k j' Hk1 Hk Hj'. lia.
  - exists CE. split; [done |]. destruct Hinv as (Hrect & Hrow0 & _ & Hdone).
    split; [done |]. split.
    + intros j. unfold cell. by rewrite Hrow0.
    + intros i j Hi Hj. apply Hdone; lia.
Qed.

Lemma elem_of_candidate_values above j x :
  x ∈ candidate_values above j ↔ ∃ k, j - 1 <= k <= j + 1 ∧ vget above k = Some x.
Proof.
  unfold candidate_values, candidate_columns. rewrite list_elem_of_omap. split.
  - intros (k & Hk & Hx). exists k. split; [| done].
    apply list_elem_of_filter in Hk as [_ Hk].
    repeat (apply elem_of_cons in Hk as [-> | Hk]; [lia |]). by apply elem_of_nil in Hk.
  - intros (k & Hk & Hx). exists k. split; [| done].
    apply list_elem_of_filter. split; [by apply vget_lt in Hx |].
    assert (k = j - 1 ∨ k = j ∨ k = j + 1) as [-> | [-> | ->]] by lia.
    + apply list_elem_of_here.
    + apply list_elem_of_further, list_elem_of_here.
    + do 2 apply list_elem_of_further. apply list_elem_of_here.
Qed.

(** The least origin value sits at a neighbouring column of the row above
    and is below the value of every neighbouring column. *)
Lemma minimum_candidate_values above j m :
  minimum (candidate_values above j) = Some m →
  (∃ k, j - 1 <= k <= j + 1 ∧ vget above k = Some m)
  ∧ (∀ k x, j - 1 <= k <= j + 1 → vget above k = Some x → m <= x).
Proof.
  intros Hm. destruct (minimum_spec _ _ Hm) as [Hin Hle]. split.
  - by apply elem_of_candidate_values.
  - intros k x Hk Hx. apply Hle. apply elem_of_candidate_values. eauto.
Qed.

(** Two grids of one shape with the same cells are the same grid. *)
Lemma grid_ext (g g' : grid) R C :
  rectangular g R C → rectangular g' R C →
  (∀ i j, 0 <= i < Z.of_nat R → 0 <= j < Z.of_nat C → cell g i j = cell g' i j) →
  g = g'.
Proof.
  intros Hg Hg' Hcells. apply list_eq. intros n.
  destruct (decide (n < R)%nat) as [Hn | Hn].
  - destruct (rectangular_vget _ _ _ (Z.of_nat n) Hg) as (row & Hrow & Hsz); [lia |].
    destruct (rectangular_vget _ _ _ (Z.of_nat n) Hg') as (row' & Hrow' & Hsz'); [lia |].
    rewrite vget_of_nat in Hrow, Hrow'. rewrite Hrow, Hrow'. f_equal.
    apply list_eq. intros k.
    destruct (decide (k < C)%nat) as [Hk | Hk].
    + specialize (Hcells (Z.of_nat n) (Z.of_nat k) ltac:(lia) ltac:(lia)).
      unfold cell in Hcells. rewrite !vget_of_nat, Hrow, Hrow' in Hcells.
      cbn [mbind option_bind] in Hcells. by rewrite !vget_of_nat in Hcells.
    + unfold vsize in *. rewrite !(proj2 (lookup_ge_None _ _)) by lia. done.
  - destruct Hg as [Hg _], Hg' as [Hg' _].
    rewrite !(proj2 (lookup_ge_None _ _)) by lia. done.
Qed.

(** ** Paths and the cumulative energy *)

Lemma path_to_row i j p cost energyMap : path_to energyMap i j p cost → 0 <= i.
Proof. induction 1; lia. Qed.

Lemma path_to_cell energyMap i j p cost :
  path_to energyMap i j p cost → is_Some (cell energyMap i j).
Proof. destruct 1; eauto. Qed.

Lemma adjacent_snoc p k j :
  adjacent p → list.last p = Some k → Z.abs (j - k) <= 1 → adjacent (p ++ [j]).
Proof.
  induction p as [| a p IH]; [done |]. intros Hadj Hlast Hjk.
  destruct p as [| b p].
  - cbn in Hlast. injection Hlast as ->. cbn. done.
  - cbn [app] in *. destruct Hadj as [Hab Hadj]. split; [done |].
    apply IH; done.
Qed.

(** A path has one column per row, ends at its column, and is connected. *)
Lemma path_to_shape energyMap i j p cost :
  path_to energyMap i j p cost →
  Z.of_nat (length p) = i + 1 ∧ list.last p = Some j ∧ adjacent p.
Proof.
  induction 1 as [j e He | i k j p cost e Hpath (Hlen & Hlast & Hadj) Hjk He].
  - done.
  - repeat split.
    + rewrite length_app. cbn. lia.
    + by rewrite last_snoc.
    + by apply (adjacent_snoc p k j).
Qed.

Lemma energies_within_cell B g i j e :
  energies_within B g → cell g i j = Some e → 0 <= e <= B.
Proof. apply pixels_within_cell. Qed.

(** Without overflow every cell of the cumulative map is the least cost of
    the paths that end there. *)
Lemma cumulative_cells_exact (energyMap : grid) (R C : nat) (B : Z) :
  rectangular energyMap R C → (1 ≤ R)%nat →
  energies_within B energyMap → Z.of_nat R * B <= Int.max →
  ∃ cumulativeEnergyMap,
    initCumulativeEnergyMap energyMap = Some cumulativeEnergyMap ∧
    rectangular cumulativeEnergyMap R C ∧
    (∀ j, cell cumulativeEnergyMap 0 j = cell energyMap 0 j) ∧
    (∀ i j, 1 <= i < Z.of_nat R → 0 <= j < Z.of_nat C →
       ∃ above e m,
         vget cumulativeEnergyMap (i - 1) = Some above ∧ cell energyMap i j = Some e ∧
         minimum (candidate_values above j) = Some m ∧
         cell cumulativeEnergyMap i j = Some (e + m)) ∧
    (∀ n j, (n < R)%nat → 0 <= j < Z.of_nat C →
       ∃ v e, cell cumulativeEnergyMap (Z.of_nat n) j = Some v ∧
            cell energyMap (Z.of_nat n) j = Some e ∧
            e <= v <= (Z.of_nat n + 1) * B ∧
            (∃ p, path_to energyMap (Z.of_nat n) j p v) ∧
            (∀ p cost, path_to energyMap (Z.of_nat n) j p cost → v <= cost)).
Proof.
  intros HE HR HB Hfit.
  destruct (initCumulativeEnergyMap_cells energyMap R C HE HR)
    as (CE & Hrun & HCE & Hrow0 & Hcells).
  assert (Hall : ∀ n j, (n < R)%nat → 0 <= j < Z.of_nat C →
       ∃ v e, cell CE (Z.of_nat n) j = Some v ∧
            cell energyMap (Z.of_nat n) j = Some e ∧
            e <= v <= (Z.of_nat n + 1) * B ∧
            (∃ p, path_to energyMap (Z.of_nat n) j p v) ∧
            (∀ p cost, path_to energyMap (Z.of_nat n) j p cost → v <= cost) ∧
            (1 <= Z.of_nat n →
             ∃ above m, vget CE (Z.of_nat n - 1) = Some above ∧
                        minimum (candidate_values above j) = Some m ∧ v = e + m)).
  { induction n as [| n IH]; intros j Hn Hj.
    - destruct (proj2 (rectangular_cell _ _ _ 0 j HE)) as [e He]; [lia |].
      pose proof (energies_within_cell _ _ _ _ _ HB He) as Hbound.
      exists e, e. cbn [Z.of_nat]. rewrite Hrow0. repeat split; try done; try lia.
      + exists [j]. by constructor.
      + intros p cost Hpath. inversion Hpath as [j' e' He' | i k j' p' cost' e' Hp' _ _]; subst.
        * rewrite He in He'. injection He' as <-. lia.
        * pose proof (path_to_row _ _ _ _ _ Hp'). lia.
    - destruct (Hcells (Z.of_nat (Datatypes.S n)) j) as (above & e & m & Habove & He & Hm & Hv);
        [lia | lia |].
      replace (Z.of_nat (Datatypes.S n) - 1) with (Z.of_nat n) in Habove by lia.
      destruct (minimum_candidate_values _ _ _ Hm) as [(k & Hk & Hmk) Hleast].
      assert (Hkr : 0 <= k < Z.of_nat C).
      { destruct (rectangular_row _ _ _ _ _ HCE Habove) as [_ Hsz].
        apply vget_lt in Hmk. lia. }
      destruct (IH k ltac:(lia) Hkr) as (v' & e' & Hv' & He' & Hbound' & (p & Hp) & _).
      assert (v' = m) as ->.
      { unfold cell in Hv'. rewrite Habove in Hv'. cbn [mbind option_bind] in Hv'. congruence. }
      pose proof (energies_within_cell _ _ _ _ _ HB He) as Hbound.
      pose proof (energies_within_cell _ _ _ _ _ HB He') as Hbound0.
      assert (Hsum : 0 <= e + m <= (Z.of_nat (Datatypes.S n) + 1) * B) by nia.
      assert (Hexact : Int.add e m = e + m).
      { apply int_add_exact. unfold Int.in_range, Int.min. nia. }
      rewrite Hexact in Hv.
      exists (e + m), e. repeat split; try done; try lia.
      + exists (p ++ [j]). replace (Z.of_nat (Datatypes.S n)) with (Z.of_nat n + 1) by lia.
        replace (e + m) with (m + e) by lia.
        apply (path_step _ _ k); [done | lia |].
        by replace (Z.of_nat n + 1) with (Z.of_nat (Datatypes.S n)) by lia.
      + intros q cost Hpath.
        remember (Z.of_nat (Datatypes.S n)) as row eqn:Hrow_eq.
        destruct Hpath as [j e'' He'' | i k' j q' cost' e'' Hq' Hjk' He''].
        * lia.
        * assert (i = Z.of_nat n) as -> by lia.
          rewrite Hrow_eq in He.
          replace (Z.of_nat n + 1) with (Z.of_nat (Datatypes.S n)) in He'' by lia.
          rewrite He in He''. injection He'' as <-.
          destruct (path_to_cell _ _ _ _ _ Hq') as [x Hx].
          assert (Hk'r : 0 <= k' < Z.of_nat C).
          { eapply (rectangular_cell _ R C (Z.of_nat n) k' HE). eauto. }
          destruct (IH k' ltac:(lia) Hk'r) as (w & ew & Hw & _ & _ & _ & Hlow & _).
          specialize (Hlow _ _ Hq').
          assert (m <= w).
          { apply (Hleast k' w); [lia |].
            unfold cell in Hw. rewrite Habove in Hw. done. }
          lia.
      + intros _. exists above, m.
        replace (Z.of_nat (Datatypes.S n) - 1) with (Z.of_nat n) by lia. done. }
  exists CE. repeat split; try done.
  - by destruct HCE.
  - by destruct HCE.
  - intros i j Hi Hj.
    destruct (Hall (Z.to_nat i) j ltac:(lia) Hj) as (v & e & Hv & He & _ & _ & _ & Hrec).
    rewrite Z2Nat.id in Hv, He, Hrec by lia.
    destruct (Hrec ltac:(lia)) as (above & m & Habove & Hm & ->).
    exists above, e, m. done.
  - intros n j Hn Hj.
    destruct (Hall n j Hn Hj) as (v & e & Hv & He & Hbound & Hp & Hlow & _).
    exists v, e. done.
Qed.

(** X3.  On energies in [[0, B]] with [R * B] representable, no addition of
    [initCumulativeEnergyMap] overflows: every cell below row 0 is the sum, in
    the integers, of its energy and of the least cumulative value among its
    neighbours of the row above, and the cell of row [i] lies between its own
    energy and [(i + 1) * B]. *)
Theorem initCumulativeEnergyMap_no_overflow (energyMap : grid) (R C : nat) (B : Z) :
  rectangular energyMap R C → (1 ≤ R)%nat →
  energies_within B energyMap → Z.of_nat R * B <= Int.max →
  ∃ cumulativeEnergyMap,
    initCumulativeEnergyMap energyMap = Some cumulativeEnergyMap ∧
    (∀ i j, 1 <= i < Z.of_nat R → 0 <= j < Z.of_nat C →
       ∃ above e m,
         vget cumulativeEnergyMap (i - 1) = Some above ∧ cell energyMap i j = Some e ∧
         minimum (candidate_values above j) = Some m ∧
         cell cumulativeEnergyMap i j = Some (e + m)) ∧
    (∀ i j, 0 <= i < Z.of_nat R → 0 <= j < Z.of_nat C →
       ∃ v e, cell cumulativeEnergyMap i j = Some v ∧ cell energyMap i j = Some e ∧
              e <= v <= (i + 1) * B).
Proof.
  intros HE HR HB Hfit.
  destruct (cumulative_cells_exact _ _ _ _ HE HR HB Hfit)
    as (CE & Hrun & _ & _ & Hsum & Hall).
  exists CE. repeat split; try done.
  intros i j Hi Hj.
  destruct (Hall (Z.to_nat i) j ltac:(lia) Hj) as (v & e & Hv & He & Hbound & _).
  rewrite Z2Nat.id in Hv, He, Hbound by lia. eauto.
Qed.

(** X4.  The cumulative energy is what its name says: without overflow, the cell
    of row [i] and column [j] holds the cost of some connected path from row 0
    to that cell, and no such path costs less. *)
Theorem cumulative_energy_is_least_path_cost (energyMap : grid) (R C : nat) (B : Z) :
  rectangular energyMap R C → (1 ≤ R)%nat →
  energies_within B energyMap → Z.of_nat R * B <= Int.max →
  ∃ cumulativeEnergyMap,
    initCumulativeEnergyMap energyMap = Some cumulativeEnergyMap ∧
    ∀ i j, 0 <= i < Z.of_nat R → 0 <= j < Z.of_nat C →
      ∃ v, cell cumulativeEnergyMap i j = Some v ∧
           (∃ p, path_to energyMap i j p v) ∧
           (∀ p cost, path_to energyMap i j p cost → v <= cost).
Proof.
  intros HE HR HB Hfit.
  destruct (cumulative_cells_exact _ _ _ _ HE HR HB Hfit)
    as (CE & Hrun & _ & _ & _ & Hall).
  exists CE. split; [done |].
  intros i j Hi Hj.
  destruct (Hall (Z.to_nat i) j ltac:(lia) Hj) as (v & e & Hv & _ & _ & Hp & Hlow).
  rewrite Z2Nat.id in Hv, Hp, Hlow by lia. eauto.
Qed.

(** ** The seam of seamCarver *)

Lemma std_find_le l v n : l !! n = Some v → (std_find l v ≤ n)%nat.
Proof.
  intros Hn. destruct (std_find_spec l v (list_elem_of_lookup_2 _ _ _ Hn)) as [_ Hfirst].
  destruct (decide (std_find l v ≤ n)%nat) as [| Hgt]; [done |].
  exfalso. apply (Hfirst n v); [lia | done | done].
Qed.

Lemma std_find_NoDup l v n : NoDup l → l !! n = Some v → std_find l v = n.
Proof.
  intros Hl Hn. destruct (std_find_spec l v (list_elem_of_lookup_2 _ _ _ Hn)) as [Hfind _].
  by apply (NoDup_lookup l _ _ v).
Qed.

(** X5.  Going up one row the seam never moves more than one column to the
    right: the row-wide search finds the leftmost column that holds the least
    origin value, and one of the origins holds it. *)
Theorem seamCarver_seam_never_jumps_right (imageMap cumulativeEnergyMap : grid) (R C : nat) :
  rectangular imageMap R C → rectangular cumulativeEnergyMap R C →
  (1 ≤ R)%nat → (1 ≤ C)%nat →
  ∃ image' seam,
    seamCarver imageMap cumulativeEnergyMap = Some (image', seam) ∧
    ∀ k a b, vget seam k = Some a → vget seam (k + 1) = Some b → a <= b + 1.
Proof.
  intros HI HCE HR HC.
  destruct (seamCarver_run _ _ _ _ HI HCE HR HC) as (image' & seam & Hrun & Hinv).
  destruct Hinv as (_ & Hlen & _ & _ & _ & Htraced & _). cbn [fst snd] in *.
  exists image', seam. split; [done |]. intros k a b Ha Hb.
  pose proof (vget_lt _ _ _ Ha) as Hk. pose proof (vget_lt _ _ _ Hb) as Hk1.
  unfold vsize in Hk, Hk1.
  destruct (Htraced (k + 1)) as (c & above & m & Hc & Habove & Hm & Hprev); [lia | lia |].
  replace (k + 1 - 1) with k in Habove, Hprev by lia.
  rewrite Hb in Hc. injection Hc as <-. rewrite Ha in Hprev. injection Hprev as ->.
  destruct (minimum_candidate_values _ _ _ Hm) as [(k' & Hk' & Hmk') _].
  apply vget_Some in Hmk' as [Hk'0 Hmk'].
  pose proof (std_find_le _ _ _ Hmk'). lia.
Qed.

Lemma adjacent_lookup (l : vec) :
  (∀ n a b, l !! n = Some a → l !! Datatypes.S n = Some b → Z.abs (b - a) <= 1) →
  adjacent l.
Proof.
  induction l as [| a l IH]; [done |]. intros Hnext.
  destruct l as [| b l]; [done |]. split.
  - by apply (Hnext 0%nat).
  - apply IH. intros n x y Hx Hy. by apply (Hnext (Datatypes.S n)).
Qed.

Lemma elem_of_candidate_columns C j k :
  k ∈ candidate_columns C j ↔ 0 <= k < C ∧ j - 1 <= k <= j + 1.
Proof.
  unfold candidate_columns. rewrite list_elem_of_filter. split.
  - intros [Hr Hk]. split; [done |].
    repeat (apply elem_of_cons in Hk as [-> | Hk]; [lia |]). by apply elem_of_nil in Hk.
  - intros [Hr Hk]. split; [done |].
    assert (k = j - 1 ∨ k = j ∨ k = j + 1) as [-> | [-> | ->]] by lia.
    + apply list_elem_of_here.
    + apply list_elem_of_further, list_elem_of_here.
    + do 2 apply list_elem_of_further. apply list_elem_of_here.
Qed.

Lemma head_filter_unique {A} (P : A → Prop) `{!∀ x, Decision (P x)} (l : list A) x :
  x ∈ l → P x → (∀ y, y ∈ l → P y → y = x) → head (filter P l) = Some x.
Proof.
  induction l as [| y l IH]; intros Hin Hx Huniq; [by apply elem_of_nil in Hin |].
  destruct (decide (P y)) as [Hy | Hy].
  - rewrite filter_cons_True by done. cbn. f_equal.
    apply Huniq; [apply list_elem_of_here | done].
  - rewrite filter_cons_False by done. apply IH; [| done |].
    + apply elem_of_cons in Hin as [-> | Hin]; done.
    + intros z Hz. apply Huniq. by apply list_elem_of_further.
Qed.

(** In a row without repeated values the row-wide search of [seamCarver]
    is the step of the reference backtrace, and lands on a neighbouring
    column. *)
Lemma reference_step_when_distinct above c m :
  NoDup above → minimum (candidate_values above c) = Some m →
  reference_step above c = Some (Z.of_nat (std_find above m))
  ∧ Z.abs (Z.of_nat (std_find above m) - c) <= 1
  ∧ vget above (Z.of_nat (std_find above m)) = Some m.
Proof.
  intros Hdistinct Hm.
  destruct (minimum_candidate_values _ _ _ Hm) as [(k & Hk & Hmk) _].
  pose proof (vget_lt _ _ _ Hmk) as Hkr.
  pose proof Hmk as Hmk'. apply vget_Some in Hmk' as [_ Hmk'].
  rewrite (std_find_NoDup _ _ _ Hdistinct Hmk'), Z2Nat.id by lia.
  split; [| split; [lia | done]].
  unfold reference_step. rewrite Hm. cbn [mbind option_bind].
  apply head_filter_unique.
  - apply elem_of_candidate_columns. lia.
  - done.
  - intros y _ Hy. apply vget_Some in Hy as [Hy0 Hy].
    pose proof (NoDup_lookup _ _ _ _ Hdistinct Hy Hmk'). lia.
Qed.

Lemma reference_walk_lookup rows_above : ∀ (rs : vec),
  length rs = Datatypes.S (length rows_above) →
  (∀ n above c, rows_above !! n = Some above → rs !! n = Some c →
     ∃ c', rs !! Datatypes.S n = Some c' ∧ reference_step above c = Some c') →
  ∃ s0 rest, rs = s0 :: rest ∧ reference_walk rows_above s0 = Some rest.
Proof.
  induction rows_above as [| above rows_above IH]; intros rs Hlen Hsteps.
  - destruct rs as [| s0 [| ? ?]]; try done. by exists s0, [].
  - destruct rs as [| s0 rs]; [done |]. exists s0, rs. split; [done |].
    destruct (Hsteps 0%nat above s0) as (c' & Hc' & Hstep); [done | done |].
    cbn [reference_walk]. rewrite Hstep. cbn [mbind option_bind].
    destruct (IH rs) as (s1 & rest & -> & Hwalk).
    + cbn in Hlen. lia.
    + intros n above' c Ha Hc. by apply (Hsteps (Datatypes.S n)).
    + cbn in Hc'. injection Hc' as ->. rewrite Hwalk. done.
Qed.

(** X6.  When no row of the cumulative grid repeats a value, the seam of
    [seamCarver] is the reference backtrace and it is connected. *)
Theorem seamCarver_reference_when_rows_distinct (imageMap cumulativeEnergyMap : grid)
    (R C : nat) :
  rectangular imageMap R C → rectangular cumulativeEnergyMap R C →
  (1 ≤ R)%nat → (1 ≤ C)%nat →
  Forall NoDup cumulativeEnergyMap →
  ∃ image' seam,
    seamCarver imageMap cumulativeEnergyMap = Some (image', seam) ∧
    reference_backtrace cumulativeEnergyMap = Some seam ∧
    adjacent seam.
Proof.
  intros HI HCE HR HC Hdistinct.
  destruct (seamCarver_run _ _ _ _ HI HCE HR HC) as (image' & seam & Hrun & Hinv).
  destruct Hinv as (_ & Hlen & _ & _ & _ & Htraced & Hseed). cbn [fst snd] in *.
  assert (Hsteps : ∀ n a b above, (Datatypes.S n < R)%nat →
            seam !! n = Some a → seam !! Datatypes.S n = Some b →
            cumulativeEnergyMap !! n = Some above →
            reference_step above b = Some a ∧ Z.abs (b - a) <= 1).
  { intros n a b above Hn Ha Hb Habove.
    destruct (Htraced (Z.of_nat (Datatypes.S n))) as (c & above' & m & Hc & Ha' & Hm & Hprev);
      [lia | lia |].
    assert (Heq : Z.of_nat (Datatypes.S n) - 1 = Z.of_nat n) by lia.
    rewrite Heq in Ha', Hprev.
    rewrite vget_of_nat in Hc. rewrite vget_of_nat in Ha'. rewrite vget_of_nat in Hprev.
    rewrite Hb in Hc. injection Hc as <-. rewrite Habove in Ha'. injection Ha' as <-.
    rewrite Ha in Hprev. injection Hprev as ->.
    assert (Hnd : NoDup above).
    { rewrite Forall_lookup in Hdistinct. by apply (Hdistinct n). }
    destruct (reference_step_when_distinct _ _ _ Hnd Hm) as (Hstep & Hnear & _).
    split; [done | lia]. }
  exists image', seam. split; [done |]. split.
  - unfold reference_backtrace.
    destruct Hseed as (last & Hlast & Hs).
    destruct HCE as [HCElen HCErows].
    assert (Hrev : reverse cumulativeEnergyMap !! 0%nat = Some last).
    { rewrite reverse_lookup by lia.
      replace (Z.of_nat R - 1) with (Z.of_nat (R - 1)) in Hlast by lia.
      rewrite vget_of_nat in Hlast. by rewrite HCElen. }
    destruct (reverse cumulativeEnergyMap) as [| last' rows_above] eqn:Hrows; [done |].
    cbn in Hrev. injection Hrev as ->.
    assert (Hrlen : length rows_above = (R - 1)%nat).
    { pose proof (length_reverse cumulativeEnergyMap) as Hl. rewrite Hrows in Hl.
      cbn in Hl. lia. }
    assert (Hlast_ne : last ≠ []).
    { intros ->. replace (Z.of_nat R - 1) with (Z.of_nat (R - 1)) in Hlast by lia.
      rewrite vget_of_nat in Hlast. rewrite Forall_lookup in HCErows.
      specialize (HCErows _ _ Hlast). cbn in HCErows. lia. }
    rewrite (reference_seed_std_min_element last Hlast_ne). cbn [mbind option_bind].
    destruct (reference_walk_lookup rows_above (reverse seam)) as (s0 & rest & Hrs & Hwalk).
    + rewrite length_reverse. lia.
    + intros n above c Habove Hc.
      pose proof (lookup_lt_Some _ _ _ Habove) as Hn.
      assert (Hce : cumulativeEnergyMap !! (R - 2 - n)%nat = Some above).
      { assert (Hr : reverse cumulativeEnergyMap !! Datatypes.S n = Some above)
          by (by rewrite Hrows).
        apply reverse_lookup_Some in Hr as [Hr _].
        by replace (R - 2 - n)%nat with (length cumulativeEnergyMap - Datatypes.S (Datatypes.S n))%nat
          by lia. }
      apply reverse_lookup_Some in Hc as [Hc _].
      destruct (lookup_lt_is_Some_2 seam (R - 2 - n)%nat) as [a Ha]; [lia |].
      exists a. split.
      * apply reverse_lookup_Some. split; [| lia].
        by replace (length seam - Datatypes.S (Datatypes.S n))%nat with (R - 2 - n)%nat by lia.
      * apply (Hsteps (R - 2 - n)%nat a c above); [lia | done | | done].
        by replace (Datatypes.S (R - 2 - n)) with (length seam - Datatypes.S n)%nat by lia.
    + assert (s0 = Z.of_nat (std_min_element last)) as ->.
      { assert (Hh : reverse seam !! 0%nat = Some s0) by (by rewrite Hrs).
        apply reverse_lookup_Some in Hh as [Hh _].
        replace (Z.of_nat R - 1) with (Z.of_nat (R - 1)) in Hs by lia.
        rewrite vget_of_nat in Hs.
        replace (length seam - 1)%nat with (R - 1)%nat in Hh by lia. congruence. }
      rewrite Hwalk. cbn [mbind option_bind]. f_equal.
      rewrite <- Hrs. apply reverse_involutive.
  - apply adjacent_lookup. intros n a b Ha Hb.
    pose proof (lookup_lt_Some _ _ _ Hb) as Hn.
    destruct (lookup_lt_is_Some_2 cumulativeEnergyMap n) as [above Habove].
    { destruct HCE as [-> _]. lia. }
    by destruct (Hsteps n a b above ltac:(lia) Ha Hb Habove).
Qed.

(** X7.  When no row of the cumulative grid repeats a value (and nothing
    overflows), the seam of [seamCarver] is a connected path from the first row
    to the last whose cost no other such path beats. *)
Theorem seamCarver_least_seam_when_rows_distinct
    (imageMap energyMap cumulativeEnergyMap : grid) (R C : nat) (B : Z) :
  rectangular imageMap R C → rectangular energyMap R C →
  (1 ≤ R)%nat → (1 ≤ C)%nat →
  energies_within B energyMap → Z.of_nat R * B <= Int.max →
  initCumulativeEnergyMap energyMap = Some cumulativeEnergyMap →
  Forall NoDup cumulativeEnergyMap →
  ∃ image' seam c cost,
    seamCarver imageMap cumulativeEnergyMap = Some (image', seam) ∧
    path_to energyMap (Z.of_nat R - 1) c seam cost ∧
    ∀ j p cost', path_to energyMap (Z.of_nat R - 1) j p cost' → cost <= cost'.
Proof.
  intros HI HE HR HC HB Hfit HCErun Hdistinct.
  destruct (cumulative_cells_exact _ _ _ _ HE HR HB Hfit)
    as (CE & Hrun' & HCE & Hrow0 & Hsum & Hall).
  rewrite HCErun in Hrun'. injection Hrun' as <-.
  destruct (seamCarver_run _ _ _ _ HI HCE HR HC) as (image' & seam & Hrun & Hinv).
  destruct Hinv as (_ & Hlen & _ & _ & Hcarved & Htraced & Hseed). cbn [fst snd] in *.
  assert (Hpath : ∀ n, (n < R)%nat →
            ∃ c v, vget seam (Z.of_nat n) = Some c ∧
                   cell cumulativeEnergyMap (Z.of_nat n) c = Some v ∧
                   path_to energyMap (Z.of_nat n) c (take (Datatypes.S n) seam) v).
  { induction n as [| n IH]; intros Hn.
    - destruct (Hcarved 0) as (c & row & Hc & Hcr & _); [lia |].
      destruct (proj2 (rectangular_cell _ _ _ 0 c HE)) as [e He]; [lia |].
      exists c, e. split; [done |]. split; [by rewrite Hrow0 |].
      apply vget_Some in Hc as [_ Hc]. change (Z.to_nat 0) with 0%nat in Hc.
      rewrite (take_S_r _ _ _ Hc). cbn. by constructor.
    - destruct (IH ltac:(lia)) as (a & v & Ha & Hv & Hp).
      destruct (Htraced (Z.of_nat (Datatypes.S n))) as (c & above & m & Hc & Habove & Hm & Hprev);
        [lia | lia |].
      assert (Heq : Z.of_nat (Datatypes.S n) - 1 = Z.of_nat n) by lia.
      rewrite Heq in Habove, Hprev.
      assert (Hnd : NoDup above).
      { rewrite Forall_lookup in Hdistinct. rewrite vget_of_nat in Habove.
        by apply (Hdistinct n). }
      destruct (reference_step_when_distinct _ _ _ Hnd Hm) as (_ & Hnear & Hat).
      rewrite Ha in Hprev. injection Hprev as ->.
      assert (v = m) as ->.
      { unfold cell in Hv. rewrite Habove in Hv. cbn [mbind option_bind] in Hv. congruence. }
      pose proof (vget_lt _ _ _ Hc) as Hk. unfold vsize in Hk.
      destruct (Hcarved (Z.of_nat (Datatypes.S n))) as (c' & row & Hc' & Hcr & _); [lia |].
      rewrite Hc in Hc'. injection Hc' as <-.
      destruct (Hsum (Z.of_nat (Datatypes.S n)) c) as (above' & e & m' & Habove' & He & Hm' & Hcell);
        [lia | lia |].
      rewrite Heq, Habove in Habove'. injection Habove' as <-.
      rewrite Hm in Hm'. injection Hm' as <-.
      exists c, (e + m). split; [done |]. split; [done |].
      pose proof Hc as Hc''. apply vget_Some in Hc'' as [_ Hc''].
      rewrite Nat2Z.id in Hc''. rewrite (take_S_r _ _ _ Hc'').
      replace (e + m) with (m + e) by lia.
      replace (Z.of_nat (Datatypes.S n)) with (Z.of_nat n + 1) in He |- * by lia.
      apply (path_step _ _ (Z.of_nat (std_find above m))); [done | lia | done]. }
  destruct (Hpath (R - 1)%nat ltac:(lia)) as (c & v & Hc & Hv & Hp).
  replace (Z.of_nat (R - 1)) with (Z.of_nat R - 1) in Hc, Hv, Hp by lia.
  replace (Datatypes.S (R - 1)) with R in Hp by lia.
  rewrite take_ge in Hp by lia.
  exists image', seam, c, v. split; [done |]. split; [done |].
  intros j p cost' Hp'.
  destruct (path_to_cell _ _ _ _ _ Hp') as [x Hx].
  assert (Hjr : 0 <= j < Z.of_nat C).
  { eapply (rectangular_cell _ R C (Z.of_nat R - 1) j HE). eauto. }
  destruct (Hall (R - 1)%nat j ltac:(lia) Hjr) as (w & ew & Hw & _ & _ & _ & Hlow).
  replace (Z.of_nat (R - 1)) with (Z.of_nat R - 1) in Hw, Hlow by lia.
  specialize (Hlow _ _ Hp').
  destruct Hseed as (last & Hlast & Hs).
  rewrite Hc in Hs. injection Hs as ->.
  unfold cell in Hv, Hw. rewrite Hlast in Hv, Hw. cbn [mbind option_bind] in Hv, Hw.
  rewrite vget_of_nat in Hv.
  assert (Hne : last ≠ []) by (intros ->; done).
  destruct (std_min_element_spec last Hne) as (m & Hm & Hle & _).
  rewrite Hm in Hv. injection Hv as ->.
  apply vget_Some in Hw as [_ Hw].
  pose proof (Hle w (list_elem_of_lookup_2 _ _ _ Hw)). lia.
Qed.

(** ** Grids the core cannot take *)

Lemma for_down_from_first_None {S} (body : Z → S → option S) fuel hi s :
  body hi s = None → for_down_from (Datatypes.S fuel) hi body s = None.
Proof. intros H. cbn [for_down_from]. by rewrite H. Qed.

Lemma seamCarver_no_column (imageMap cumulativeEnergyMap : grid) (R : nat) :
  rectangular imageMap R 0 → rectangular cumulativeEnergyMap R 0 →
  seamCarver imageMap cumulativeEnergyMap = None.
Proof.
  intros HI HCE.
  apply rectangular_no_column in HI as ->. apply rectangular_no_column in HCE as ->.
  unfold seamCarver, vsize. rewrite length_replicate.
  destruct R as [| R]; [done |].
  assert (Hlast : vget (replicate (Datatypes.S R) ([] : vec)) (Z.of_nat (Datatypes.S R) - 1)
                  = Some []).
  { replace (Z.of_nat (Datatypes.S R) - 1) with (Z.of_nat R) by lia.
    rewrite vget_of_nat. apply lookup_replicate_2. lia. }
  run Hlast.
  rewrite vset_Some
    by (unfold vsize; rewrite length_seam_column_indices_init; lia).
  cbn [mbind option_bind]. unfold for_down.
  replace (Z.to_nat (Z.of_nat (Datatypes.S R) - 1 + 1)) with (Datatypes.S R) by lia.
  apply for_down_from_first_None. unfold seamCarver_step.
  rewrite vget_insert by (unfold vsize; rewrite length_seam_column_indices_init; lia).
  rewrite (bool_decide_eq_true_2 (_ = _)) by done. cbn [mbind option_bind].
  run Hlast. done.
Qed.

(** X8.  On grids without a column, and on grids without a row, [seamCarver] has
    no defined behaviour: it pops an empty row, or reads row -1. *)
Theorem seamCarver_undefined_without_columns (imageMap cumulativeEnergyMap : grid) (R : nat) :
  rectangular imageMap R 0 → rectangular cumulativeEnergyMap R 0 →
  seamCarver imageMap cumulativeEnergyMap = None.
Proof. apply seamCarver_no_column. Qed.

(** ** The three stages together *)






(** ** Ties: images of horizontal stripes *)







(** ** The size of the energies *)

(** X2.  From an image whose pixels lie in [[0, maxValue]] (as [initImageMap]
    ensures) the energies lie in [[0, 4 * maxValue]], provided that bound is
    an [int]: this is the bound on the energies under which the cumulative
    energies do not overflow. *)
Theorem initEnergyMap_energies_within (imageMap : grid) (R C : nat) (maxValue : Z) :
  rectangular imageMap R C → pixels_within maxValue imageMap → 4 * maxValue <= Int.max →
  ∃ energyMap,
    initEnergyMap imageMap = Some energyMap ∧ rectangular energyMap R C ∧
    energies_within (4 * maxValue) energyMap.
Proof.
  intros HI Hpix Hmax. eexists. split; [by apply initEnergyMap_rect |].
  split; [apply rectangular_fmap_seqZ |].
  unfold energies_within. apply Forall_fmap, Forall_forall. intros i Hi.
  apply Forall_fmap, Forall_forall. intros j Hj. cbn.
  apply list_elem_of_In, elem_of_seqZ in Hi. apply list_elem_of_In, elem_of_seqZ in Hj.
  destruct (proj2 (rectangular_cell _ _ _ i j HI)) as [p Hp]; [lia |].
  unfold energy_of. rewrite (energyPixel_rect _ _ _ _ _ _ HI Hp). cbn [default].
  pose proof (pixels_within_cell _ _ _ _ _ Hpix Hp) as Hpr.
  pose proof (neighbour_within _ _ _ i (j - 1) Hpix Hpr).
  pose proof (neighbour_within _ _ _ i (j + 1) Hpix Hpr).
  pose proof (neighbour_within _ _ _ (i - 1) j Hpix Hpr).
  pose proof (neighbour_within _ _ _ (i + 1) j Hpix Hpr).
  rewrite (int_energy_exact maxValue) by done. unfold id. lia.
Qed.

(** ** Loading a raster *)

(** X12.  A file that cannot be opened: [main] prints the banner, [initImageMap]
    writes the message that names the file, and the process ends through
    [exit(1)]. *)
Theorem main_missing_file (fs : filesystem) (argv : list string) (filename : string)
    (c : console) :
  length argv = 4%nat → argv !! 1%nat = Some filename → fs filename = None →
  main fs argv c =
    (Exited 1,
     Console (cout c ++ banner)
       (cerr c ++ [Str "error: could not open file '"; Str filename; Str ("'" ++ nl);
                   Str ("check the file name is correct and the file is located at the same directory level as the executable" ++ nl)])).
Proof.
  intros Hargc Hfile Hfs. apply (main_exits_with_initImageMap _ _ filename); [done |].
  rewrite Hargc. change (Z.of_nat 4 =? 4) with true. cbv iota.
  unfold initImageMap. rewrite Hfs. reflexivity.
Qed.

(** X13.  A file whose first line is not exactly [P2]: [initImageMap] writes the
    message that quotes the line it read and the process ends through
    [exit(1)]; nothing else of the file is looked at. *)
Theorem initImageMap_wrong_format (fs : filesystem) (filename line rest : string)
    (c : console) :
  fs filename = Some (line ++ nl ++ rest)%string → newline_free line = true →
  line ≠ "P2"%string →
  initImageMap fs filename c =
    (Exited 1,
     Console (cout c)
       (cerr c ++ [Str ("error: invalid pgm file format" ++ nl);
                   Str "file format was read as '"; Str line;
                   Str ("', while the only supported format is 'P2'" ++ nl)])).
Proof.
  intros Hfs Hline Hformat. unfold initImageMap. rewrite Hfs. cbv zeta.
  rewrite getline_line by done. cbv beta iota.
  rewrite (proj2 (String.eqb_neq line "P2") Hformat). reflexivity.
Qed.

Lemma read_pixel_lines_empty_last lines : ∀ fuel temp_line pixelData c,
  Forall (λ line, line ≠ EmptyString ∧ newline_free line = true) lines →
  (length lines < fuel)%nat →
  read_pixel_lines fuel (stream_of (String.concat nl (lines ++ [EmptyString])))
    temp_line pixelData c
  = (Undefined, c).
Proof.
  induction lines as [| line lines IH]; intros fuel temp_line pixelData c Hlines Hfuel;
    (destruct fuel as [| fuel]; [cbn in Hfuel; lia |]).
  - reflexivity.
  - apply Forall_cons_1 in Hlines as [[Hline Hfree] Hlines].
    destruct (last_char_is_Some line Hline) as [ch Hch].
    destruct (lines ++ [EmptyString]) as [| line' lines'] eqn:Hrest;
      [by apply app_eq_nil in Hrest as [_ ?] |].
    change (String.concat nl ((line :: lines) ++ [EmptyString]))
      with (String.concat nl (line :: (lines ++ [EmptyString]))).
    rewrite Hrest.
    change (String.concat nl (line :: line' :: lines'))
      with (line ++ nl ++ String.concat nl (line' :: lines'))%string.
    cbn [read_pixel_lines stream_of eofbit].
    fold (stream_of (line ++ nl ++ String.concat nl (line' :: lines'))).
    rewrite getline_line by done. rewrite Hch.
    apply IH; [done | cbn in Hfuel; lia].
Qed.

(** X14.  A raster file that ends in a newline: after its last line of pixels the
    loop of [initImageMap] reads one more, empty line and takes the character
    at index [size() - 1] of it, which an empty string does not have. *)
Theorem initImageMap_trailing_newline (fs : filesystem) (filename : string)
    (comment : option string) (dims maxline : string) (lines : list string)
    (columns rows maxPixelValue : Z) (c : console) :
  fs filename = Some (pgm_text comment dims maxline (lines ++ [EmptyString])) →
  match comment with
  | Some text => newline_free text = true
  | None => String.get 0 dims ≠ Some "#"%char
  end →
  newline_free dims = true → newline_free maxline = true →
  Forall (λ line, line ≠ EmptyString ∧ newline_free line = true) lines →
  header_dimensions dims = (columns, rows) → columns ≠ 0 → rows ≠ 0 →
  stoi maxline = Some maxPixelValue →
  initImageMap fs filename c = (Undefined, c).
Proof.
  intros Hfs Hcomment Hdims Hmaxline Hlines Hheader Hcolumns Hrows Hmax.
  rewrite (initImageMap_header fs filename comment dims maxline (lines ++ [EmptyString])
             columns rows maxPixelValue) by done.
  unfold mbind, io_bind. rewrite read_pixel_lines_empty_last; [done | done |].
  pose proof (length_lines_le (lines ++ [EmptyString])) as Hle.
  rewrite length_app in Hle. cbn [length] in Hle. lia.
Qed.





(** X18.  The two earlier revisions kept in seamCarving.cpp have no range check:
    their loops store every value that is read, whatever it is, and never end
    the process. *)
Theorem populate_unchecked_accepts (rows columns : nat) (ssPixelData : istream)
    (c : console) :
  ∃ result,
    populate_unchecked (Z.of_nat rows) (Z.of_nat columns) ssPixelData c = (Returned result, c)
    ∧ concat result = extractions (rows * columns) ssPixelData 0
    ∧ rectangular result rows columns.
Proof.
  exists (extracted_rows rows columns ssPixelData 0).
  rewrite populate_unchecked_run, !Nat2Z.id.
  split; [done |]. split; [apply concat_extracted_rows | apply rectangular_extracted_rows].
Qed.

(** ** The further properties at concrete inputs *)

Lemma initCumulativeEnergyMap_no_overflow_witness :
  (rectangular [[4; 5; 4]; [7; 8; 7]; [4; 5; 4]] 3 3
   ∧ energies_within 8 [[4; 5; 4]; [7; 8; 7]; [4; 5; 4]])
  ∧ ∃ cumulativeEnergyMap,
      initCumulativeEnergyMap [[4; 5; 4]; [7; 8; 7]; [4; 5; 4]] = Some cumulativeEnergyMap
      ∧ ∃ v e, cell cumulativeEnergyMap 2 1 = Some v
               ∧ cell [[4; 5; 4]; [7; 8; 7]; [4; 5; 4]] 2 1 = Some e ∧ e <= v <= 24.
Proof.
  assert (Hrect : rectangular [[4; 5; 4]; [7; 8; 7]; [4; 5; 4]] 3 3).
  { split; [reflexivity | repeat constructor]. }
  assert (Hwithin : energies_within 8 [[4; 5; 4]; [7; 8; 7]; [4; 5; 4]]).
  { repeat constructor; lia. }
  split; [done |].
  destruct (initCumulativeEnergyMap_no_overflow [[4; 5; 4]; [7; 8; 7]; [4; 5; 4]] 3 3 8
              Hrect ltac:(lia) Hwithin ltac:(unfold Int.max; lia))
    as (CE & Hrun & _ & Hbound).
  exists CE. split; [done |].
  destruct (Hbound 2 1 ltac:(lia) ltac:(lia)) as (v & e & Hv & He & Hle).
  exists v, e. repeat split; try done; lia.
Defined.

Lemma cumulative_energy_is_least_path_cost_witness :
  (rectangular [[4; 5; 4]; [7; 8; 7]; [4; 5; 4]] 3 3
   ∧ energies_within 8 [[4; 5; 4]; [7; 8; 7]; [4; 5; 4]])
  ∧ ∃ cumulativeEnergyMap,
      initCumulativeEnergyMap [[4; 5; 4]; [7; 8; 7]; [4; 5; 4]] = Some cumulativeEnergyMap
      ∧ ∃ v, cell cumulativeEnergyMap 2 1 = Some v
             ∧ ∀ p cost, path_to [[4; 5; 4]; [7; 8; 7]; [4; 5; 4]] 2 1 p cost → v <= cost.
Proof.
  assert (Hrect : rectangular [[4; 5; 4]; [7; 8; 7]; [4; 5; 4]] 3 3).
  { split; [reflexivity | repeat constructor]. }
  assert (Hwithin : energies_within 8 [[4; 5; 4]; [7; 8; 7]; [4; 5; 4]]).
  { repeat constructor; lia. }
  split; [done |].
  destruct (cumulative_energy_is_least_path_cost [[4; 5; 4]; [7; 8; 7]; [4; 5; 4]] 3 3 8
              Hrect ltac:(lia) Hwithin ltac:(unfold Int.max; lia))
    as (CE & Hrun & Hleast).
  exists CE. split; [done |].
  destruct (Hleast 2 1 ltac:(lia) ltac:(lia)) as (v & Hv & _ & Hle).
  exists v. done.
Defined.

Lemma seamCarver_seam_never_jumps_right_witness :
  (rectangular [[0; 0; 5; 0; 0]; [0; 1; 5; 0; 0]] 2 5
   ∧ rectangular [[0; 6; 10; 5; 0]; [1; 6; 14; 5; 0]] 2 5)
  ∧ ∃ image' seam,
      seamCarver [[0; 0; 5; 0; 0]; [0; 1; 5; 0; 0]] [[0; 6; 10; 5; 0]; [1; 6; 14; 5; 0]]
        = Some (image', seam)
      ∧ ∀ k a b, vget seam k = Some a → vget seam (k + 1) = Some b → a <= b + 1.
Proof.
  assert (HI : rectangular [[0; 0; 5; 0; 0]; [0; 1; 5; 0; 0]] 2 5).
  { split; [reflexivity | repeat constructor]. }
  assert (HCE : rectangular [[0; 6; 10; 5; 0]; [1; 6; 14; 5; 0]] 2 5).
  { split; [reflexivity | repeat constructor]. }
  split; [done |].
  apply (seamCarver_seam_never_jumps_right _ _ 2 5 HI HCE); lia.
Defined.

Lemma seamCarver_reference_when_rows_distinct_witness :
  (rectangular [[10; 20; 30]; [40; 50; 60]] 2 3
   ∧ rectangular [[1; 2; 3]; [5; 6; 8]] 2 3
   ∧ Forall NoDup [[1; 2; 3]; [5; 6; 8]])
  ∧ ∃ image' seam,
      seamCarver [[10; 20; 30]; [40; 50; 60]] [[1; 2; 3]; [5; 6; 8]] = Some (image', seam)
      ∧ reference_backtrace [[1; 2; 3]; [5; 6; 8]] = Some seam
      ∧ adjacent seam.
Proof.
  assert (HI : rectangular [[10; 20; 30]; [40; 50; 60]] 2 3).
  { split; [reflexivity | repeat constructor]. }
  assert (HCE : rectangular [[1; 2; 3]; [5; 6; 8]] 2 3).
  { split; [reflexivity | repeat constructor]. }
  assert (Hdistinct : Forall NoDup [[1; 2; 3]; [5; 6; 8]]).
  { repeat constructor;
      intros Hin; repeat (apply elem_of_cons in Hin as [Hin | Hin]; [lia |]);
      by apply elem_of_nil in Hin. }
  split; [done |].
  apply (seamCarver_reference_when_rows_distinct _ _ 2 3 HI HCE); [lia | lia | done].
Defined.

Lemma seamCarver_least_seam_when_rows_distinct_witness :
  (rectangular [[10; 20; 30]; [40; 50; 60]] 2 3
   ∧ rectangular [[1; 2; 3]; [4; 5; 6]] 2 3
   ∧ energies_within 6 [[1; 2; 3]; [4; 5; 6]]
   ∧ initCumulativeEnergyMap [[1; 2; 3]; [4; 5; 6]] = Some [[1; 2; 3]; [5; 6; 8]]
   ∧ Forall NoDup [[1; 2; 3]; [5; 6; 8]])
  ∧ ∃ image' seam c cost,
      seamCarver [[10; 20; 30]; [40; 50; 60]] [[1; 2; 3]; [5; 6; 8]] = Some (image', seam)
      ∧ path_to [[1; 2; 3]; [4; 5; 6]] 1 c seam cost
      ∧ ∀ j p cost', path_to [[1; 2; 3]; [4; 5; 6]] 1 j p cost' → cost <= cost'.
Proof.
  assert (HI : rectangular [[10; 20; 30]; [40; 50; 60]] 2 3).
  { split; [reflexivity | repeat constructor]. }
  assert (HE : rectangular [[1; 2; 3]; [4; 5; 6]] 2 3).
  { split; [reflexivity | repeat constructor]. }
  assert (Hwithin : energies_within 6 [[1; 2; 3]; [4; 5; 6]]).
  { repeat constructor; lia. }
  assert (Hrun : initCumulativeEnergyMap [[1; 2; 3]; [4; 5; 6]] = Some [[1; 2; 3]; [5; 6; 8]])
    by (vm_compute; reflexivity).
  assert (Hdistinct : Forall NoDup [[1; 2; 3]; [5; 6; 8]]).
  { repeat constructor;
      intros Hin; repeat (apply elem_of_cons in Hin as [Hin | Hin]; [lia |]);
      by apply elem_of_nil in Hin. }
  split; [done |].
  apply (seamCarver_least_seam_when_rows_distinct _ _ _ 2 3 6 HI HE);
    try done; try lia; unfold Int.max; lia.
Defined.

Lemma seamCarver_undefined_without_columns_witness :
  (rectangular [[]; []] 2 0 ∧ rectangular [[]; []] 2 0)
  ∧ seamCarver [[]; []] [[]; []] = None.
Proof.
  assert (Hrect : rectangular [[]; []] 2 0).
  { split; [reflexivity | repeat constructor]. }
  split; [done |].
  exact (seamCarver_undefined_without_columns [[]; []] [[]; []] 2 Hrect Hrect).
Defined.




Lemma initEnergyMap_energies_within_witness :
  (rectangular [[1; 2; 3]; [4; 5; 6]; [7; 8; 9]] 3 3
   ∧ pixels_within 255 [[1; 2; 3]; [4; 5; 6]; [7; 8; 9]])
  ∧ ∃ energyMap,
      initEnergyMap [[1; 2; 3]; [4; 5; 6]; [7; 8; 9]] = Some energyMap
      ∧ energies_within 1020 energyMap.
Proof.
  assert (Hrect : rectangular [[1; 2; 3]; [4; 5; 6]; [7; 8; 9]] 3 3).
  { split; [reflexivity | repeat constructor]. }
  assert (Hpix : pixels_within 255 [[1; 2; 3]; [4; 5; 6]; [7; 8; 9]]).
  { repeat constructor; lia. }
  split; [done |].
  destruct (initEnergyMap_energies_within _ 3 3 255 Hrect Hpix ltac:(unfold Int.max; lia))
    as (E & Hrun & _ & Hwithin).
  exists E. done.
Defined.

Lemma main_missing_file_witness :
  (length ["./a"; "other.pgm"; "1"; "0"] = 4%nat ∧ example_fs "other.pgm" = None)
  ∧ main example_fs ["./a"; "other.pgm"; "1"; "0"] (Console [] [])
    = (Exited 1,
       Console ([] ++ banner)
         ([] ++ [Str "error: could not open file '"; Str "other.pgm"; Str ("'" ++ nl);
                 Str ("check the file name is correct and the file is located at the same directory level as the executable" ++ nl)])).
Proof.
  split; [split; reflexivity |].
  exact (main_missing_file example_fs ["./a"; "other.pgm"; "1"; "0"] "other.pgm"
           (Console [] []) eq_refl eq_refl eq_refl).
Defined.

Lemma initImageMap_wrong_format_witness :
  (newline_free "P5" = true ∧ "P5"%string ≠ "P2"%string)
  ∧ initImageMap (λ _, Some ("P5" ++ nl ++ "3 1" ++ nl ++ "255" ++ nl ++ "1 2 3")%string)
      "image.pgm" (Console [] [])
    = (Exited 1,
       Console []
         ([] ++ [Str ("error: invalid pgm file format" ++ nl);
                 Str "file format was read as '"; Str "P5";
                 Str ("', while the only supported format is 'P2'" ++ nl)])).
Proof.
  assert (Hformat : "P5"%string ≠ "P2"%string) by done.
  split; [done |].
  exact (initImageMap_wrong_format
           (λ _, Some ("P5" ++ nl ++ "3 1" ++ nl ++ "255" ++ nl ++ "1 2 3")%string)
           "image.pgm" "P5" ("3 1" ++ nl ++ "255" ++ nl ++ "1 2 3")%string
           (Console [] []) eq_refl eq_refl Hformat).
Defined.

Lemma initImageMap_trailing_newline_witness :
  pgm_text None "3 1" "255" (["1 2 3"] ++ [EmptyString])
    = ("P2" ++ nl ++ "3 1" ++ nl ++ "255" ++ nl ++ "1 2 3" ++ nl)%string
  ∧ initImageMap (λ _, Some ("P2" ++ nl ++ "3 1" ++ nl ++ "255" ++ nl ++ "1 2 3" ++ nl)%string)
      "image.pgm" (Console [] [])
    = (Undefined, Console [] []).
Proof.
  split; [reflexivity |].
  assert (Hlines : Forall (λ line, line ≠ EmptyString ∧ newline_free line = true) ["1 2 3"])
    by (repeat constructor; done).
  assert (Hdims : String.get 0 "3 1" ≠ Some "#"%char) by done.
  exact (initImageMap_trailing_newline
           (λ _, Some ("P2" ++ nl ++ "3 1" ++ nl ++ "255" ++ nl ++ "1 2 3" ++ nl)%string)
           "image.pgm" None "3 1" "255" ["1 2 3"] 3 1 255 (Console [] [])
           eq_refl Hdims eq_refl eq_refl Hlines eq_refl ltac:(done) ltac:(done) eq_refl).
Defined.


